(** * A shallow embedding of eseries.py (IEC 60063 preferred-number series)

    Arithmetic is modelled exactly: a Python float is the real number it
    stands for, values are rationals [Q], and [pow(scale, 1.5)], which is
    irrational, is represented through its square.  The logarithms taken by
    [erange] are kept exactly as [log10(q) / 2^k] for a positive rational [q].
    The module [Float64] models the functions whose results are fixed bit
    for bit by IEEE binary64 arithmetic over Rocq's primitive floats. *)

From Stdlib Require Import String ZArith QArith Qpower Qround Qabs List Lia Lqa Bool.
From Stdlib Require Import Sorting.Sorted Permutation.
From Stdlib Require PrimFloat FloatOps SpecFloat Uint63.
Import ListNotations.

Open Scope Z_scope.

Definition Qlt_bool (x y : Q) : bool := negb (Qle_bool y x).

(** ** Series registry *)

Inductive ESeries := E3 | E6 | E12 | E24 | E48 | E96 | E192.

(** The numeric value of the [IntEnum] member. *)
Definition ESeries_value (k : ESeries) : Z :=
  match k with
  | E3 => 3 | E6 => 6 | E12 => 12 | E24 => 24 | E48 => 48 | E96 => 96 | E192 => 192
  end.

Definition series_keys : list ESeries := [E3; E6; E12; E24; E48; E96; E192].

Definition _E (k : ESeries) : list Z :=
  match k with
  | E3 => [10; 22; 47]
  | E6 => [10; 15; 22; 33; 47; 68]
  | E12 => [10; 12; 15; 18; 22; 27; 33; 39; 47; 56; 68; 82]
  | E24 => [10; 11; 12; 13; 15; 16; 18; 20; 22; 24; 27; 30; 33; 36; 39; 43; 47; 51; 56; 62; 68; 75; 82; 91]
  | E48 => [100; 105; 110; 115; 121; 127; 133; 140; 147; 154; 162; 169; 178; 187; 196; 205; 215; 226; 237; 249; 261; 274;
        287; 301; 316; 332; 348; 365; 383; 402; 422; 442; 464; 487; 511; 536; 562; 590; 619; 649; 681; 715; 750; 787;
        825; 866; 909; 953]
  | E96 => [100; 102; 105; 107; 110; 113; 115; 118; 121; 124; 127; 130; 133; 137; 140; 143; 147; 150; 154; 158; 162; 165;
        169; 174; 178; 182; 187; 191; 196; 200; 205; 210; 215; 221; 226; 232; 237; 243; 249; 255; 261; 267; 274; 280;
        287; 294; 301; 309; 316; 324; 332; 340; 348; 357; 365; 374; 383; 392; 402; 412; 422; 432; 442; 453; 464; 475;
        487; 499; 511; 523; 536; 549; 562; 576; 590; 604; 619; 634; 649; 665; 681; 698; 715; 732; 750; 768; 787; 806;
        825; 845; 866; 887; 909; 931; 953; 976]
  | E192 => [100; 101; 102; 104; 105; 106; 107; 109; 110; 111; 113; 114; 115; 117; 118; 120; 121; 123; 124; 126; 127; 129;
          130; 132; 133; 135; 137; 138; 140; 142; 143; 145; 147; 149; 150; 152; 154; 156; 158; 160; 162; 164; 165; 167;
          169; 172; 174; 176; 178; 180; 182; 184; 187; 189; 191; 193; 196; 198; 200; 203; 205; 208; 210; 213; 215; 218;
          221; 223; 226; 229; 232; 234; 237; 240; 243; 246; 249; 252; 255; 258; 261; 264; 267; 271; 274; 277; 280; 284;
          287; 291; 294; 298; 301; 305; 309; 312; 316; 320; 324; 328; 332; 336; 340; 344; 348; 352; 357; 361; 365; 370;
          374; 379; 383; 388; 392; 397; 402; 407; 412; 417; 422; 427; 432; 437; 442; 448; 453; 459; 464; 470; 475; 481;
          487; 493; 499; 505; 511; 517; 523; 530; 536; 542; 549; 556; 562; 569; 576; 583; 590; 597; 604; 612; 619; 626;
          634; 642; 649; 657; 665; 673; 681; 690; 698; 706; 715; 723; 732; 741; 750; 759; 768; 777; 787; 796; 806; 816;
          825; 835; 845; 856; 866; 876; 887; 898; 909; 920; 931; 942; 953; 965; 976; 988]
  end.

(** [series] looks the key up in [_E]; the key type is the closed
    enumeration, so the lookup cannot miss. *)
Definition series (k : ESeries) : list Z := _E k.

(** ** Python values, exceptions and results *)

(** A Python float as it reaches [erange]: [PNum neg sq] is the real number
    [(-1)^neg * sqrt sq] with [sq >= 0].  A rational [q] is [of_Q q]; the
    window bounds [value / pow(scale, 1.5)] of [find_nearest_few] are of this
    form as well.  Non-finite floats are kept apart. *)
Inductive pyfloat := PNum (neg : bool) (sq : Q) | PInf (neg : bool) | PNaN.

Definition of_Q (q : Q) : pyfloat := PNum (Qlt_bool q 0) (q * q).

Definition isfinite (x : pyfloat) : bool :=
  match x with PNum _ _ => true | _ => false end.

(** [x |-> sign(x) * x^2] is strictly increasing, so it decides the order. *)
Definition signed_sq (neg : bool) (sq : Q) : Q := if neg then - sq else sq.

Definition pf_le (x y : pyfloat) : bool :=
  match x, y with
  | PNaN, _ | _, PNaN => false
  | PNum n1 s1, PNum n2 s2 => Qle_bool (signed_sq n1 s1) (signed_sq n2 s2)
  | PInf true, _ | _, PInf false => true
  | _, _ => false
  end.

Definition pf_lt (x y : pyfloat) : bool :=
  match x, y with
  | PNaN, _ | _, PNaN => false
  | PNum n1 s1, PNum n2 s2 => Qlt_bool (signed_sq n1 s1) (signed_sq n2 s2)
  | PInf true, PInf true | PInf false, PInf false => false
  | PInf true, _ | _, PInf false => true
  | _, _ => false
  end.

(** Products and quotients of finite values ([find_nearest_few] only forms
    them from a finite [value] and the finite positive [pow(scale, 1.5)]). *)
Definition pf_mul (x y : pyfloat) : pyfloat :=
  match x, y with
  | PNum n1 s1, PNum n2 s2 => PNum (xorb n1 n2) (s1 * s2)
  | _, _ => PNaN
  end.

Definition pf_div (x y : pyfloat) : pyfloat :=
  match x, y with
  | PNum n1 s1, PNum n2 s2 => PNum (xorb n1 n2) (s1 / s2)
  | _, _ => PNaN
  end.

(** [pow(x, 1.5)] for the positive rational [x]: the square root of [x^3]. *)
Definition pow_1_5 (x : Q) : pyfloat := PNum false (x * x * x).

(** The pieces of a formatted exception message. *)
Inductive piece := Txt (s : string) | Val (x : pyfloat) | IntVal (z : Z).

Inductive exn :=
| ValueError (msg : list piece)
| OverflowError (msg : list piece)
| AssertionError
| IndexError.

Inductive result (A : Type) := Ok (a : A) | Raise (e : exn).
Arguments Ok {A} a.
Arguments Raise {A} e.

Definition bind {A B} (r : result A) (k : A -> result B) : result B :=
  match r with Ok a => k a | Raise e => Raise e end.

Notation "'let*' x ':=' r 'in' k" := (bind r (fun x => k))
  (at level 200, x name, r at level 100, k at level 200).

(** Python's [l[i]], with negative indices counted from the end. *)
Definition py_get {A} (l : list A) (i : Z) : option A :=
  let j := if i <? 0 then Z.of_nat (length l) + i else i in
  if j <? 0 then None else nth_error l (Z.to_nat j).

(** [range(a, b)] over integers. *)
Definition zrange (a b : Z) : list Z :=
  map (fun n => a + Z.of_nat n) (seq 0 (Z.to_nat (b - a))).

(** [range(a, b)] over list indices. *)
Definition nrange (a b : nat) : list nat := seq a (b - a).

(** ** Exact decimal logarithms *)

(** [floor(log10 n)] for an integer [n >= 1]. *)
Fixpoint zlog10_aux (fuel : nat) (n : Z) : Z :=
  match fuel with
  | O => 0
  | S f => if n <? 10 then 0 else 1 + zlog10_aux f (n / 10)
  end.

Definition zlog10 (n : Z) : Z := zlog10_aux (Z.to_nat (Z.log2 n)) n.

Definition pow10 (e : Z) : Q := Qpower (10 # 1) e.

(** [floor(log10 q)] for a rational [q > 0]. *)
Definition floor_log10 (q : Q) : Z :=
  let f := zlog10 (Qnum q) - zlog10 (Zpos (Qden q)) in
  if Qlt_bool q (pow10 f) then f - 1 else f.

(** A logarithm [log10(lg_arg) / 2^lg_shift]. *)
Record lg := Lg { lg_arg : Q; lg_shift : nat }.

Definition qpow2 (q : Q) (n : nat) : Q := Nat.iter n (fun x => (x * x)%Q) q.

(** The argument of [a] once written with shift [m >= lg_shift a]. *)
Definition lift (a : lg) (m : nat) : Q := qpow2 (lg_arg a) (m - lg_shift a).

Definition lg_sub (a b : lg) : lg :=
  let m := Nat.max (lg_shift a) (lg_shift b) in Lg (lift a m / lift b m) m.

Definition lg_add (a b : lg) : lg :=
  let m := Nat.max (lg_shift a) (lg_shift b) in Lg (lift a m * lift b m) m.

Definition lg_half (a : lg) : lg := Lg (lg_arg a) (S (lg_shift a)).

Definition lg_lt (a b : lg) : bool :=
  let m := Nat.max (lg_shift a) (lg_shift b) in Qlt_bool (lift a m) (lift b m).

Definition lg_le (a b : lg) : bool :=
  let m := Nat.max (lg_shift a) (lg_shift b) in Qle_bool (lift a m) (lift b m).

Definition lg_eqb (a b : lg) : bool :=
  let m := Nat.max (lg_shift a) (lg_shift b) in Qeq_bool (lift a m) (lift b m).

(** [math.floor] of a logarithm. *)
Definition lg_floor (a : lg) : Z := floor_log10 (lg_arg a) / 2 ^ Z.of_nat (lg_shift a).

(** [a - z] for an integer [z]. *)
Definition lg_sub_Z (a : lg) (z : Z) : lg :=
  Lg (lg_arg a / pow10 (z * 2 ^ Z.of_nat (lg_shift a))) (lg_shift a).

Definition lg_of_Z (z : Z) : lg := Lg (pow10 z) 0.

(** [math.log10] of a rational, and of a finite positive float; [erange] only
    takes the logarithm of bounds that passed its range checks. *)
Definition log10_Q (x : Q) : lg := Lg x 0.

Definition log10_pf (x : pyfloat) : lg :=
  match x with PNum _ s => Lg s 1 | _ => Lg 1 0 end.

(** [divmod(value, 1)] followed by [int] on the quotient. *)
Definition _decade_mantissa (value : lg) : Z * lg :=
  let f_decade := lg_floor value in (f_decade, lg_sub_Z value f_decade).

(** [value % 1]. *)
Definition lg_mod1 (value : lg) : lg := snd (_decade_mantissa value).

Definition is_integral (f : lg) : bool := lg_eqb f (lg_of_Z (lg_floor f)).

(** The message is not formatted in the source: its placeholder stays. *)
Definition _try_integral (f : lg) : result Z :=
  if is_integral f then Ok (lg_floor f)
  else Raise (ValueError [Txt "{} does not have integral value."]).

(** ** Precomputed tables *)

Definition LOG10_MANTISSA_E (k : ESeries) : list lg :=
  map (fun x => lg_mod1 (log10_Q (inject_Z x))) (series k).

(** Python's [max] over a non-empty iterable keeps the first maximum. *)
Definition py_max (l : list Q) : Q :=
  match l with
  | [] => 0%Q
  | x :: xs => fold_left (fun m y => if Qlt_bool m y then y else m) xs x
  end.

Definition GEOMETRIC_SCALE_E (k : ESeries) : Q :=
  let s := series k in
  py_max (map (fun '(a, b) => (inject_Z b / inject_Z a)%Q) (combine s (tl s))).

Definition _MINIMUM_E_VALUE : pyfloat := of_Q (1 # (10 ^ 200)).

(** ** Rounding *)

(** Round half to even, as Python's [round]. *)
Definition round_half_even (q : Q) : Z :=
  let f := Qfloor q in
  let r := (q - inject_Z f)%Q in
  if Qlt_bool r (1 # 2) then f
  else if Qlt_bool (1 # 2) r then f + 1
  else if Z.even f then f else f + 1.

(** [round(x, n)]: to [n] decimal places ([n] may be negative). *)
Definition py_round (x : Q) (n : Z) : Q :=
  Qred (inject_Z (round_half_even (x * pow10 n)) / pow10 n).

Definition _round_sig (x : Q) (figures : Z) : Q :=
  if Qeq_bool x 0 then 0%Q
  else py_round x (figures - lg_floor (log10_Q (Qabs x)) - 1).

(** ** [bisect] on a sorted list: the leftmost and rightmost insertion points *)

Fixpoint bisect_left (a : list lg) (x : lg) : nat :=
  match a with
  | [] => O
  | h :: t => if lg_lt h x then S (bisect_left t x) else O
  end.

Fixpoint bisect_right (a : list lg) (x : lg) : nat :=
  match a with
  | [] => O
  | h :: t => if lg_le h x then S (bisect_right t x) else O
  end.

(** ** [erange] *)

(** The body of the decade loop: the values yielded for one decade. *)
Definition erange_decade (series_values : list Z) (series_decade : Z)
    (start stop : pyfloat) (decade : Z) (index_begin index_end : nat) : list Q :=
  flat_map (fun index =>
    let found := nth index series_values 0 in
    let scale_exponent := decade - series_decade in
    let result := (inject_Z found * pow10 scale_exponent)%Q in
    let rounded_result := _round_sig result (series_decade + 1) in
    if pf_le start (of_Q rounded_result) && pf_le (of_Q rounded_result) stop
    then [rounded_result] else [])
  (nrange index_begin index_end).

Definition erange (series_key : ESeries) (start stop : pyfloat) : result (list Q) :=
  if negb (isfinite start) then
    Raise (ValueError [Txt "Start value "; Val start; Txt " is not finite"]) else
  if negb (isfinite stop) then
    Raise (ValueError [Txt "Stop value "; Val stop; Txt " is not finite"]) else
  if pf_lt start _MINIMUM_E_VALUE then
    Raise (ValueError [Val stop; Txt " is too small. The start value must greater than or equal to ";
                       Val _MINIMUM_E_VALUE]) else
  if pf_lt stop _MINIMUM_E_VALUE then
    Raise (ValueError [Val stop; Txt " is too small. The stop value must greater than or equal to ";
                       Val _MINIMUM_E_VALUE]) else
  if negb (pf_le start stop) then
    Raise (ValueError [Txt "Start value "; Val start; Txt " must be less than stop value "; Val stop]) else
  let series_values := series series_key in
  let series_log := LOG10_MANTISSA_E series_key in
  match py_get series_log (-1), py_get series_log (-2) with
  | None, _ | _, None => Raise IndexError
  | Some last1, Some last2 =>
  let epsilon := lg_half (lg_sub last1 last2) in
  let start_log := lg_sub (log10_pf start) epsilon in
  let '(start_decade0, start_mantissa) := _decade_mantissa start_log in
  let start_index0 := bisect_left series_log start_mantissa in
  let '(start_decade, start_index) :=
    if Nat.eqb start_index0 (length series_log)
    then (start_decade0 + 1, O)            (* wrap to next decade *)
    else (start_decade0, start_index0) in
  let stop_log := lg_add (log10_pf stop) epsilon in
  let '(stop_decade, stop_mantissa) := _decade_mantissa stop_log in
  let stop_index := bisect_right series_log stop_mantissa in
  if Nat.eqb stop_index 0 then Raise AssertionError else
  match py_get series_values 0 with
  | None => Raise IndexError
  | Some first =>
  let* series_decade := _try_integral (log10_Q (inject_Z first)) in
  Ok (flat_map (fun decade =>
        let index_begin := if decade =? start_decade then start_index else O in
        let index_end := if decade =? stop_decade then stop_index else length series_log in
        erange_decade series_values series_decade start stop decade index_begin index_end)
      (zrange start_decade (stop_decade + 1)))
  end
  end.

(** ** Nearest values *)

(** A stable insertion sort by key, as Python's [sorted(..., key=...)]:
    an element goes after every element whose key is not greater. *)
Fixpoint insert_by {A} (key : A -> Q) (x : A) (l : list A) : list A :=
  match l with
  | [] => [x]
  | h :: t => if Qlt_bool (key x) (key h) then x :: l else h :: insert_by key x t
  end.

Definition sorted_by {A} (key : A -> Q) (l : list A) : list A :=
  fold_left (fun acc x => insert_by key x acc) l [].

Definition enumerate {A} (l : list A) : list (nat * A) := combine (seq 0 (length l)) l.

Definition _nearest_n (candidates : list Q) (value : Q) (n : Z) : list Q :=
  let abs_deltas := map (fun c => Qabs (c - value)) candidates in
  let indexes := map fst (sorted_by snd (enumerate abs_deltas)) in
  sorted_by (fun x => x) (map (fun i => nth i candidates 0%Q) (firstn (Z.to_nat n) indexes)).

Definition find_nearest_few (series_key : ESeries) (value : Q) (num : Z) : result (list Q) :=
  if negb (existsb (Z.eqb num) [1; 2; 3]) then
    Raise (ValueError [Txt "num "; IntVal num; Txt " is not 1, 2 or 3"]) else
  let start := pf_div (of_Q value) (pow_1_5 (GEOMETRIC_SCALE_E series_key)) in
  let stop := pf_mul (of_Q value) (pow_1_5 (GEOMETRIC_SCALE_E series_key)) in
  let* candidates := erange series_key start stop in
  Ok (_nearest_n candidates value num).

Definition find_first (p : Q -> bool) (candidates : list Q) : result Q :=
  match find p candidates with Some c => Ok c | None => Raise AssertionError end.

Definition find_greater_than_or_equal (series_key : ESeries) (value : Q) : result Q :=
  let* candidates := find_nearest_few series_key value 3 in
  find_first (fun candidate => Qle_bool value candidate) candidates.

Definition find_greater_than (series_key : ESeries) (value : Q) : result Q :=
  let* candidates := find_nearest_few series_key value 3 in
  find_first (fun candidate => Qlt_bool value candidate) candidates.

Definition find_less_than_or_equal (series_key : ESeries) (value : Q) : result Q :=
  let* candidates := find_nearest_few series_key value 3 in
  find_first (fun candidate => Qle_bool candidate value) (rev candidates).

Definition find_less_than (series_key : ESeries) (value : Q) : result Q :=
  let* candidates := find_nearest_few series_key value 3 in
  find_first (fun candidate => Qlt_bool candidate value) (rev candidates).

Definition find_nearest (series_key : ESeries) (value : Q) : result Q :=
  let* r := find_nearest_few series_key value 1 in
  match r with c :: _ => Ok c | [] => Raise IndexError end.

(** ** Lookups by a plain key *)

(** An [IntEnum] member hashes and compares as its value, so [series] and
    [tolerance] called with an integer find an entry exactly when the
    integer is the value of a member. *)
Definition key_name (k : ESeries) : string :=
  match k with
  | E3 => "E3" | E6 => "E6" | E12 => "E12" | E24 => "E24"
  | E48 => "E48" | E96 => "E96" | E192 => "E192"
  end.

Definition lookup_key (series_key : Z) : option ESeries :=
  find (fun k => Z.eqb (ESeries_value k) series_key) series_keys.

Definition key_not_found (series_key : Z) : exn :=
  ValueError [Txt "E-series "; IntVal series_key; Txt " not found. Available E-series keys are ";
              Txt (String.concat ", " (map key_name series_keys))].

(** [series(series_key)] for an integer key. *)
Definition series_of_key (series_key : Z) : result (list Z) :=
  match lookup_key series_key with
  | Some k => Ok (_E k)
  | None => Raise (key_not_found series_key)
  end.

Definition _TOLERANCE (k : ESeries) : Q :=
  match k with
  | E3 => 2 # 5 | E6 => 1 # 5 | E12 => 1 # 10 | E24 => 1 # 20
  | E48 => 1 # 50 | E96 => 1 # 100 | E192 => 1 # 200
  end.

(** [tolerance(series_key)] for an integer key. *)
Definition tolerance (series_key : Z) : result Q :=
  match lookup_key series_key with
  | Some k => Ok (_TOLERANCE k)
  | None => Raise (key_not_found series_key)
  end.

(** ** [find_ge] *)

(** The loop of [bisect.bisect_left]: a binary search on [[lo, hi)]; the
    fuel [hi - lo] is never exhausted, the interval shrinks at each step. *)
Fixpoint bisect_left_loop (a : list Q) (x : Q) (lo hi : nat) (fuel : nat) : nat :=
  match fuel with
  | O => lo
  | S f =>
    if (lo <? hi)%nat then
      let mid := ((lo + hi) / 2)%nat in
      if Qlt_bool (nth mid a 0%Q) x then bisect_left_loop a x (S mid) hi f
      else bisect_left_loop a x lo mid f
    else lo
  end.

Definition py_bisect_left (a : list Q) (x : Q) : nat :=
  bisect_left_loop a x 0 (length a) (length a).

Definition find_ge (a : list Q) (x : Q) : result Q :=
  let i := py_bisect_left a x in
  if negb (Nat.eqb i (length a)) then Ok (nth i a 0%Q)
  else Raise (ValueError []).

(** ** Python floats as IEEE binary64 values *)

Module Float64.
Import PrimFloat.

(** The rational a finite float denotes ([None] for infinities and NaN). *)
Definition to_Q (f : float) : option Q :=
  match FloatOps.Prim2SF f with
  | SpecFloat.S754_zero _ => Some 0%Q
  | SpecFloat.S754_finite s m e =>
    Some (Qred ((if s then -1 else 1) * inject_Z (Zpos m) * Qpower (2 # 1) e))
  | _ => None
  end.

(** The error of converting a non-finite float to an [int]. *)
Definition not_finite_error (f : float) : exn :=
  if is_nan f then ValueError [Txt "cannot convert float NaN to integer"]
  else OverflowError [Txt "cannot convert float infinity to integer"].

(** [math.floor(f)], an [int]. *)
Definition floor (f : float) : result Z :=
  match to_Q f with Some q => Ok (Qfloor q) | None => Raise (not_finite_error f) end.

(** [int(f)]: truncation toward zero. *)
Definition int (f : float) : result Z :=
  match to_Q f with
  | Some q => Ok (if Qle_bool 0 q then Qfloor q else - Qfloor (- q))
  | None => Raise (not_finite_error f)
  end.

(** [f == math.floor(f)]: a float and an [int] compare by their exact values. *)
Definition is_integral (f : float) : result bool :=
  let* z := floor f in
  Ok (match to_Q f with Some q => Qeq_bool q (inject_Z z) | None => false end).

(** The message is not formatted in the source: its placeholder stays. *)
Definition _try_integral (f : float) : result Z :=
  let* b := is_integral f in
  if negb b then Raise (ValueError [Txt "{} does not have integral value."]) else int f.

(** An [int] in [[0, 2^53)] as a float: exact. *)
Definition of_int (z : Z) : float := of_uint63 (Uint63.of_Z z).

(** [b / a] on two [int]s: Python returns the correctly rounded quotient,
    which IEEE division returns on the exact floats of [b] and [a]. *)
Definition true_div (b a : Z) : float := div (of_int b) (of_int a).

(** [max] over a non-empty iterable: an item replaces the current maximum
    only when it is greater. *)
Definition py_max (l : list float) : result float :=
  match l with
  | [] => Raise (ValueError [Txt "max() arg is an empty sequence"])
  | x :: xs => Ok (fold_left (fun m y => if ltb m y then y else m) xs x)
  end.

(** [GEOMETRIC_SCALE_E[k]], the float [max(b/a for a, b in zip(s, s[1:]))]. *)
Definition GEOMETRIC_SCALE_E (k : ESeries) : result float :=
  let s := series k in
  py_max (map (fun '(a, b) => true_div b a) (combine s (tl s))).

End Float64.

(** ** Series one level apart *)

(** [s[::2]]: every other element, from the first. *)
Fixpoint every_other (l : list Z) : list Z :=
  match l with
  | x :: _ :: t => x :: every_other t
  | _ => l
  end.

(** * Verification *)

(** ** Powers of ten and decimal logarithms *)

Lemma pow10_pos (e : Z) : (0 < pow10 e)%Q.
Proof. apply Qpower_0_lt. reflexivity. Qed.

Lemma pow10_add (a b : Z) : (pow10 (a + b) == pow10 a * pow10 b)%Q.
Proof. unfold pow10. apply Qpower_plus. discriminate. Qed.

Lemma pow10_le (a b : Z) : a <= b -> (pow10 a <= pow10 b)%Q.
Proof. intros H. unfold pow10. apply Qpower_le_compat_l; [exact H | discriminate]. Qed.

Lemma pow10_lt (a b : Z) : a < b -> (pow10 a < pow10 b)%Q.
Proof. intros H. unfold pow10. apply Qpower_lt_compat_l; [exact H | reflexivity]. Qed.

Lemma pow10_le_inv (a b : Z) : (pow10 a <= pow10 b)%Q -> a <= b.
Proof. intros H. unfold pow10 in H. apply Qpower_le_compat_l_inv in H; [exact H | reflexivity]. Qed.

Lemma pow10_succ (a : Z) : (pow10 (a + 1) == 10 * pow10 a)%Q.
Proof. rewrite pow10_add. unfold pow10 at 2. simpl. ring. Qed.

Lemma pow10_Z (e : Z) : 0 <= e -> (pow10 e == inject_Z (10 ^ e))%Q.
Proof. intros H. unfold pow10. rewrite Zpower_Qpower by exact H. reflexivity. Qed.

Lemma zlog10_aux_nonneg (fuel : nat) (n : Z) : 0 <= zlog10_aux fuel n.
Proof.
  revert n; induction fuel as [|f IH]; intros n; cbn [zlog10_aux]; [lia|].
  destruct (n <? 10); [lia|]. specialize (IH (n / 10)). lia.
Qed.

Lemma zlog10_aux_spec (fuel : nat) (n : Z) :
  1 <= n -> n < 2 ^ (Z.of_nat fuel + 1) ->
  10 ^ zlog10_aux fuel n <= n < 10 ^ (zlog10_aux fuel n + 1).
Proof.
  revert n; induction fuel as [|f IH]; intros n H1 H2; cbn [zlog10_aux].
  - simpl in H2. simpl. lia.
  - destruct (Z.ltb_spec n 10) as [Hn|Hn]; [simpl; lia|].
    assert (Hd : 1 <= n / 10) by (apply Z.div_le_lower_bound; lia).
    assert (Hf : n / 10 < 2 ^ (Z.of_nat f + 1)).
    { apply Z.div_lt_upper_bound; [lia|].
      replace (Z.of_nat (S f) + 1) with ((Z.of_nat f + 1) + 1) in H2 by lia.
      rewrite Z.pow_add_r in H2 by lia. change (2 ^ 1) with 2 in H2. lia. }
    specialize (IH (n / 10) Hd Hf).
    pose proof (zlog10_aux_nonneg f (n / 10)) as Hnn.
    set (r := zlog10_aux f (n / 10)) in *.
    replace (1 + r + 1) with (Z.succ (r + 1)) by lia.
    replace (1 + r) with (Z.succ r) by lia.
    rewrite !Z.pow_succ_r by lia.
    pose proof (Z.mul_div_le n 10) as Hm.
    pose proof (Z.mod_pos_bound n 10) as Hmod.
    pose proof (Z.div_mod n 10) as Hdm. lia.
Qed.

Lemma zlog10_spec (n : Z) : 1 <= n -> 10 ^ zlog10 n <= n < 10 ^ (zlog10 n + 1).
Proof.
  intros H. unfold zlog10. apply zlog10_aux_spec; [exact H|].
  rewrite Z2Nat.id by (apply Z.log2_nonneg).
  destruct (Z.log2_spec n) as [_ Hs]; [lia|]. rewrite Z.add_1_r. exact Hs.
Qed.

Lemma floor_log10_spec (q : Q) :
  (0 < q)%Q -> (pow10 (floor_log10 q) <= q < pow10 (floor_log10 q + 1))%Q.
Proof.
  destruct q as [n d]. intros Hq.
  assert (Hn : 1 <= n).
  { unfold Qlt in Hq. simpl in Hq. lia. }
  destruct (zlog10_spec n Hn) as [Ha1 Ha2].
  destruct (zlog10_spec (Zpos d) ltac:(lia)) as [Hb1 Hb2].
  pose proof (zlog10_aux_nonneg (Z.to_nat (Z.log2 n)) n) as Ha0.
  pose proof (zlog10_aux_nonneg (Z.to_nat (Z.log2 (Zpos d))) (Zpos d)) as Hb0.
  unfold floor_log10; simpl Qnum; simpl Qden.
  unfold zlog10 in *.
  set (a := zlog10_aux (Z.to_nat (Z.log2 n)) n) in *.
  set (b := zlog10_aux (Z.to_nat (Z.log2 (Zpos d))) (Zpos d)) in *.
  assert (Hq' : (n # d == inject_Z n / inject_Z (Zpos d))%Q).
  { unfold Qeq, Qdiv, Qmult, Qinv; simpl. lia. }
  (* the bounds 10^(a-b-1) < q < 10^(a-b+1) *)
  assert (HP1 : (pow10 (a - b - 1) * inject_Z (10 ^ (b + 1)) == inject_Z (10 ^ a))%Q).
  { rewrite <- pow10_Z by lia. rewrite <- pow10_add. rewrite pow10_Z by lia.
    replace (a - b - 1 + (b + 1)) with a by lia. reflexivity. }
  assert (HP2 : (pow10 (a - b + 1) * inject_Z (10 ^ b) == inject_Z (10 ^ (a + 1)))%Q).
  { rewrite <- pow10_Z by lia. rewrite <- pow10_add. rewrite pow10_Z by lia.
    replace (a - b + 1 + b) with (a + 1) by lia. reflexivity. }
  assert (Hlo : (pow10 (a - b - 1) <= n # d)%Q).
  { rewrite Hq'. apply Qle_shift_div_l; [unfold Qlt; simpl; lia|].
    pose proof (pow10_pos (a - b - 1)).
    assert (inject_Z (Zpos d) <= inject_Z (10 ^ (b + 1)))%Q by (rewrite <- Zle_Qle; lia).
    assert (inject_Z (10 ^ a) <= inject_Z n)%Q by (rewrite <- Zle_Qle; lia).
    nra. }
  assert (Hhi : (n # d < pow10 (a - b + 1))%Q).
  { rewrite Hq'. apply Qlt_shift_div_r; [unfold Qlt; simpl; lia|].
    pose proof (pow10_pos (a - b + 1)).
    assert (inject_Z (10 ^ b) <= inject_Z (Zpos d))%Q by (rewrite <- Zle_Qle; lia).
    assert (inject_Z n < inject_Z (10 ^ (a + 1)))%Q by (rewrite <- Zlt_Qlt; lia).
    nra. }
  unfold Qlt_bool. destruct (Qle_bool (pow10 (a - b)) (n # d)) eqn:E; simpl.
  - apply Qle_bool_iff in E. split; [exact E|].
    replace (a - b + 1) with (a - b + 1) by lia. exact Hhi.
  - assert (E' : (n # d < pow10 (a - b))%Q).
    { apply Qnot_le_lt. intros C. apply Qle_bool_iff in C. congruence. }
    replace (a - b - 1 + 1) with (a - b) by lia. split; [exact Hlo | exact E'].
Qed.

Lemma floor_log10_unique (q : Q) (f : Z) :
  (pow10 f <= q < pow10 (f + 1))%Q -> floor_log10 q = f.
Proof.
  intros [H1 H2].
  assert (Hq : (0 < q)%Q) by (eapply Qlt_le_trans; [apply pow10_pos | exact H1]).
  destruct (floor_log10_spec q Hq) as [H3 H4].
  assert (floor_log10 q <= f).
  { apply Z.lt_succ_r. apply Z.nle_gt. intros C.
    apply pow10_le in C. unfold Z.succ in C. lra. }
  assert (f <= floor_log10 q).
  { apply Z.lt_succ_r. apply Z.nle_gt. intros C.
    apply pow10_le in C. unfold Z.succ in C. lra. }
  lia.
Qed.

(** ** The stored tables *)

Section Tables.

Variable k : ESeries.

(** The exponent of the first table entry: [series_decade] in [erange]. *)
Definition sdec : Z := match k with E3 | E6 | E12 | E24 => 1 | E48 | E96 | E192 => 2 end.

Definition NN : nat := length (series k).
Definition Nz : Z := Z.of_nat NN.

Definition tb (i : nat) : Z := nth i (series k) 0.

Fixpoint incr_b (l : list Z) : bool :=
  match l with
  | a :: ((b :: _) as t) => (a <? b) && incr_b t
  | _ => true
  end.

Lemma tbl_facts_b :
  Nat.leb 3 NN = true /\ incr_b (series k) = true /\ tb 0 = 10 ^ sdec /\
  (tb (NN - 1) <? 10 ^ (sdec + 1)) = true.
Proof. unfold NN, tb, sdec; destruct k; vm_compute; repeat split; reflexivity. Qed.

Lemma tbl_facts :
  (3 <= NN)%nat /\ incr_b (series k) = true /\ tb 0 = 10 ^ sdec /\
  tb (NN - 1) < 10 ^ (sdec + 1).
Proof.
  destruct tbl_facts_b as [H1 [H2 [H3 H4]]].
  apply Nat.leb_le in H1. apply Z.ltb_lt in H4. tauto.
Qed.

Lemma incr_b_nth (l : list Z) (i : nat) :
  incr_b l = true -> (S i < length l)%nat -> nth i l 0 < nth (S i) l 0.
Proof.
  revert i; induction l as [|a [|b t] IH]; intros i H Hi; simpl in *; try lia.
  apply andb_true_iff in H as [H1 H2]. destruct i as [|i].
  - apply Z.ltb_lt. exact H1.
  - apply (IH i H2). simpl. lia.
Qed.

Lemma tb_lt (i j : nat) : (i < j < NN)%nat -> tb i < tb j.
Proof.
  destruct tbl_facts as [_ [Hs _]].
  intros [Hij HjN]. induction Hij as [|j Hij IH].
  - apply incr_b_nth; [exact Hs | exact HjN].
  - transitivity (tb j); [apply IH; lia|]. apply incr_b_nth; [exact Hs | exact HjN].
Qed.

Lemma tb_le (i j : nat) : (i <= j < NN)%nat -> tb i <= tb j.
Proof.
  intros [H1 H2]. destruct (Nat.eq_dec i j) as [->|Hne]; [lia|].
  apply Z.lt_le_incl, tb_lt. lia.
Qed.

Lemma tb_bounds (i : nat) : (i < NN)%nat -> 10 ^ sdec <= tb i < 10 ^ (sdec + 1).
Proof.
  destruct tbl_facts as [H3 [_ [H0 HL]]]. intros Hi. split.
  - rewrite <- H0. apply tb_le. lia.
  - eapply Z.le_lt_trans; [apply tb_le | exact HL]. lia.
Qed.

Lemma sdec_nonneg : 0 <= sdec.
Proof. unfold sdec; destruct k; lia. Qed.

Lemma Nz_ge3 : 3 <= Nz.
Proof. destruct tbl_facts as [H _]. unfold Nz. lia. Qed.

(** The standard value at position [z]: entry [z mod N] of the table
    at decade [z / N]. *)
Definition val (z : Z) : Q :=
  inject_Z (tb (Z.to_nat (z mod Nz))) * pow10 (z / Nz - sdec).

Definition vq (z : Z) : Q := Qred (val z).

Lemma val_dec (d : Z) (i : nat) :
  (i < NN)%nat -> val (d * Nz + Z.of_nat i) = (inject_Z (tb i) * pow10 (d - sdec))%Q.
Proof.
  intros Hi. pose proof Nz_ge3 as HN. unfold val.
  assert (Hm : (d * Nz + Z.of_nat i) mod Nz = Z.of_nat i).
  { rewrite Z.add_comm, Z.mod_add by lia. apply Z.mod_small. unfold Nz. lia. }
  assert (Hd : (d * Nz + Z.of_nat i) / Nz = d).
  { rewrite Z.add_comm, Z.div_add by lia. rewrite Z.div_small by (unfold Nz; lia). lia. }
  rewrite Hm, Hd, Nat2Z.id. reflexivity.
Qed.

Lemma pos_dec (z : Z) : z = z / Nz * Nz + Z.of_nat (Z.to_nat (z mod Nz)) /\
  (Z.to_nat (z mod Nz) < NN)%nat.
Proof.
  pose proof Nz_ge3 as HN. pose proof (Z.mod_pos_bound z Nz ltac:(lia)) as Hb.
  split.
  - rewrite Z2Nat.id by lia. rewrite Z.mul_comm. apply Z.div_mod. lia.
  - unfold Nz in *. lia.
Qed.

Lemma val_bounds (z : Z) :
  (pow10 (z / Nz) <= val z < pow10 (z / Nz + 1))%Q.
Proof.
  destruct (pos_dec z) as [_ Hi]. unfold val.
  destruct (tb_bounds _ Hi) as [H1 H2].
  pose proof sdec_nonneg.
  assert (E1 : (pow10 (z / Nz) == inject_Z (10 ^ sdec) * pow10 (z / Nz - sdec))%Q).
  { rewrite <- pow10_Z by lia. rewrite <- pow10_add. f_equiv. lia. }
  assert (E2 : (pow10 (z / Nz + 1) == inject_Z (10 ^ (sdec + 1)) * pow10 (z / Nz - sdec))%Q).
  { rewrite <- pow10_Z by lia. rewrite <- pow10_add. f_equiv. lia. }
  rewrite E1, E2. pose proof (pow10_pos (z / Nz - sdec)).
  rewrite Zle_Qle in H1. rewrite Zlt_Qlt in H2. split; nra.
Qed.

Lemma val_pos (z : Z) : (0 < val z)%Q.
Proof. eapply Qlt_le_trans; [apply pow10_pos | apply val_bounds]. Qed.

Lemma val_lt (z1 z2 : Z) : z1 < z2 -> (val z1 < val z2)%Q.
Proof.
  intros H. pose proof Nz_ge3 as HN.
  destruct (Z.eq_dec (z1 / Nz) (z2 / Nz)) as [E|E].
  - destruct (pos_dec z1) as [D1 I1]; destruct (pos_dec z2) as [D2 I2].
    unfold val. rewrite E.
    assert (Hi : (Z.to_nat (z1 mod Nz) < Z.to_nat (z2 mod Nz))%nat) by lia.
    pose proof (tb_lt _ _ (conj Hi I2)) as Ht. rewrite Zlt_Qlt in Ht.
    pose proof (pow10_pos (z2 / Nz - sdec)). nra.
  - assert (Hd : z1 / Nz < z2 / Nz).
    { assert (z1 / Nz <= z2 / Nz) by (apply Z.div_le_mono; lia). lia. }
    destruct (val_bounds z1) as [_ A]. destruct (val_bounds z2) as [B _].

    eapply Qlt_le_trans; [exact A|]. eapply Qle_trans; [|exact B].
    apply pow10_le. lia.
Qed.

Lemma val_le (z1 z2 : Z) : z1 <= z2 -> (val z1 <= val z2)%Q.
Proof.
  intros H. destruct (Z.eq_dec z1 z2) as [->|Hne]; [apply Qle_refl|].
  apply Qlt_le_weak, val_lt. lia.
Qed.

Lemma val_lt_inv (z1 z2 : Z) : (val z1 < val z2)%Q -> z1 < z2.
Proof.
  intros H. apply Z.nle_gt. intros C. apply val_le in C. lra.
Qed.

Lemma val_le_inv (z1 z2 : Z) : (val z1 <= val z2)%Q -> z1 <= z2.
Proof.
  intros H. apply Z.nlt_ge. intros C. apply val_lt in C. lra.
Qed.

Lemma val_shift (z c : Z) : (val (z + c * Nz) == pow10 c * val z)%Q.
Proof.
  pose proof Nz_ge3 as HN. unfold val.
  rewrite Z.mod_add, Z.div_add by lia.
  replace (z / Nz + c - sdec) with (c + (z / Nz - sdec)) by lia.
  rewrite pow10_add. ring.
Qed.

Lemma pow10_sq (a : Z) : (pow10 a * pow10 a == pow10 (2 * a))%Q.
Proof. rewrite <- pow10_add. f_equiv. lia. Qed.

Lemma val_sq_bounds (z : Z) :
  (pow10 (2 * (z / Nz)) <= val z * val z < pow10 (2 * (z / Nz) + 2))%Q.
Proof.
  destruct (val_bounds z) as [H1 H2]. pose proof (pow10_pos (z / Nz)).
  rewrite <- pow10_sq. replace (2 * (z / Nz) + 2) with (2 * (z / Nz + 1)) by lia.
  rewrite <- pow10_sq. split; nra.
Qed.

End Tables.

(** ** The index search of [erange] *)

Fixpoint prefix_len (p : Z -> bool) (l : list Z) : nat :=
  match l with
  | [] => O
  | a :: t => if p a then S (prefix_len p t) else O
  end.

Lemma prefix_len_spec (p : Z -> bool) (l : list Z) :
  (forall i j, (i <= j < length l)%nat -> p (nth j l 0) = true -> p (nth i l 0) = true) ->
  (prefix_len p l <= length l)%nat /\
  forall j, (j < length l)%nat -> ((j < prefix_len p l)%nat <-> p (nth j l 0) = true).
Proof.
  induction l as [|a t IH]; intros Hm; simpl.
  - split; [lia | intros; lia].
  - assert (Hm' : forall i j, (i <= j < length t)%nat -> p (nth j t 0) = true -> p (nth i t 0) = true).
    { intros i j Hij Hj. apply (Hm (S i) (S j)); [simpl; lia | exact Hj]. }
    destruct (IH Hm') as [IH1 IH2].
    destruct (p a) eqn:Ea.
    + split; [lia|]. intros [|j] Hj; simpl.
      * split; intros; [exact Ea | lia].
      * rewrite <- IH2 by lia. lia.
    + split; [lia|]. intros j Hj. split; [lia|]. intros Hpj.
      specialize (Hm O j ltac:(simpl; lia) Hpj). simpl in Hm. congruence.
Qed.

Lemma bisect_left_map (f : Z -> lg) (l : list Z) (x : lg) :
  bisect_left (map f l) x = prefix_len (fun y => lg_lt (f y) x) l.
Proof. induction l as [|a t IH]; simpl; [reflexivity|]. rewrite IH. reflexivity. Qed.

Lemma bisect_right_map (f : Z -> lg) (l : list Z) (x : lg) :
  bisect_right (map f l) x = prefix_len (fun y => lg_le (f y) x) l.
Proof. induction l as [|a t IH]; simpl; [reflexivity|]. rewrite IH. reflexivity. Qed.

Lemma lg_lt_01 (a b : Q) : lg_lt (Lg a 0) (Lg b 1) = Qlt_bool (a * a) b.
Proof. reflexivity. Qed.

Lemma lg_le_01 (a b : Q) : lg_le (Lg a 0) (Lg b 1) = Qle_bool (a * a) b.
Proof. reflexivity. Qed.

Lemma Qlt_bool_iff (a b : Q) : Qlt_bool a b = true <-> (a < b)%Q.
Proof.
  unfold Qlt_bool. rewrite negb_true_iff. split.
  - intros H. apply Qnot_le_lt. intros C. apply Qle_bool_iff in C. congruence.
  - intros H. destruct (Qle_bool b a) eqn:E; [|reflexivity].
    apply Qle_bool_iff in E. lra.
Qed.


Lemma Qlt_bool_false (a b : Q) : Qlt_bool a b = false <-> (b <= a)%Q.
Proof.
  unfold Qlt_bool. rewrite negb_false_iff. apply Qle_bool_iff.
Qed.

Section Positions.

Variable k : ESeries.

Definition mq (x : Z) : Q := (inject_Z x / pow10 (sdec k))%Q.

Lemma mantissa_table : LOG10_MANTISSA_E k = map (fun x => Lg (mq x) 0) (series k).
Proof. unfold mq, sdec; destruct k; vm_compute; reflexivity. Qed.

Lemma mq_sq (d : Z) (i : nat) : (i < NN k)%nat ->
  (mq (tb k i) * mq (tb k i) * pow10 (d * 2) == val k (d * Nz k + Z.of_nat i) * val k (d * Nz k + Z.of_nat i))%Q.
Proof.
  intros Hi. rewrite val_dec by exact Hi. unfold mq.
  assert (E : (pow10 (d * 2) == pow10 (d - sdec k) * pow10 (d - sdec k) * (pow10 (sdec k) * pow10 (sdec k)))%Q).
  { rewrite <- !pow10_add. f_equiv. lia. }
  rewrite E. pose proof (pow10_pos (sdec k)).
  field. intros C. rewrite C in H. discriminate.
Qed.

Lemma mq_pos (i : nat) : (i < NN k)%nat -> (0 < mq (tb k i))%Q.
Proof.
  intros Hi. destruct (tb_bounds k i Hi) as [H _]. unfold mq.
  apply Qlt_shift_div_l; [apply pow10_pos|]. rewrite Qmult_0_l.
  change 0%Q with (inject_Z 0). rewrite <- Zlt_Qlt. pose proof (Z.pow_pos_nonneg 10 (sdec k) ltac:(lia) (sdec_nonneg k)). lia.
Qed.

Lemma mq_le (i j : nat) : (i <= j < NN k)%nat -> (mq (tb k i) <= mq (tb k j))%Q.
Proof.
  intros H. pose proof (tb_le k i j H) as T. rewrite Zle_Qle in T. unfold mq.
  pose proof (pow10_pos (sdec k)).
  apply Qle_shift_div_l; [exact H0|]. unfold Qdiv.
  rewrite <- Qmult_assoc, (Qmult_comm (/ _)), Qmult_inv_r, Qmult_1_r; [exact T|].
  intros C. rewrite C in H0. discriminate.
Qed.

(** The position of the first table entry at or after the logarithm
    [log10(A) / 2], as [erange] computes it (before the wrap, which does not
    change the position). *)
Definition lo_pos (A : Q) : Z :=
  let '(d, m) := _decade_mantissa (Lg A 1) in
  d * Nz k + Z.of_nat (bisect_left (LOG10_MANTISSA_E k) m).

(** The position just after the last table entry at or before [log10(B) / 2]. *)
Definition hi_pos (B : Q) : Z :=
  let '(d, m) := _decade_mantissa (Lg B 1) in
  d * Nz k + Z.of_nat (bisect_right (LOG10_MANTISSA_E k) m).

Lemma decade_bounds (A : Q) : (0 < A)%Q ->
  (pow10 (2 * (floor_log10 A / 2)) <= A < pow10 (2 * (floor_log10 A / 2) + 2))%Q.
Proof.
  intros HA. destruct (floor_log10_spec A HA) as [H1 H2]. split.
  - eapply Qle_trans; [|exact H1]. apply pow10_le. Z.div_mod_to_equations; lia.
  - eapply Qlt_le_trans; [exact H2|]. apply pow10_le. Z.div_mod_to_equations; lia.
Qed.

Lemma decade_mantissa_1 (A : Q) :
  _decade_mantissa (Lg A 1) =
  (floor_log10 A / 2, Lg (A / pow10 (floor_log10 A / 2 * 2)) 1).
Proof. reflexivity. Qed.

Lemma div_dec (d : Z) (i : nat) : (i < NN k)%nat -> (d * Nz k + Z.of_nat i) / Nz k = d.
Proof.
  intros Hi. pose proof (Nz_ge3 k).
  rewrite Z.add_comm, Z.div_add by lia. rewrite Z.div_small by (unfold Nz; lia). lia.
Qed.

Lemma val_sq_dec (d : Z) (i : nat) : (i < NN k)%nat ->
  (pow10 (2 * d) <= val k (d * Nz k + Z.of_nat i) * val k (d * Nz k + Z.of_nat i) < pow10 (2 * d + 2))%Q.
Proof.
  intros Hi. pose proof (val_sq_bounds k (d * Nz k + Z.of_nat i)) as H.
  rewrite div_dec in H by exact Hi. exact H.
Qed.

Lemma mq_antitone (M : Q) (i j : nat) : (i <= j < NN k)%nat ->
  (mq (tb k j) * mq (tb k j) < M)%Q -> (mq (tb k i) * mq (tb k i) < M)%Q.
Proof.
  intros H Hj. pose proof (mq_le i j H). pose proof (mq_pos i ltac:(lia)). nra.
Qed.

Lemma mq_antitone_le (M : Q) (i j : nat) : (i <= j < NN k)%nat ->
  (mq (tb k j) * mq (tb k j) <= M)%Q -> (mq (tb k i) * mq (tb k i) <= M)%Q.
Proof.
  intros H Hj. pose proof (mq_le i j H). pose proof (mq_pos i ltac:(lia)). nra.
Qed.

Lemma lo_pos_spec (A : Q) : (0 < A)%Q ->
  forall z, lo_pos A <= z <-> (A <= val k z * val k z)%Q.
Proof.
  intros HA z.
  unfold lo_pos. rewrite decade_mantissa_1, mantissa_table, bisect_left_map.
  pose proof (decade_bounds A HA) as [HA1 HA2].
  set (d0 := floor_log10 A / 2) in *.
  set (P := pow10 (d0 * 2)).
  assert (HP : (0 < P)%Q) by apply pow10_pos.
  set (M := (A / P)%Q).
  assert (EM : (M * P == A)%Q) by (unfold M; field; intros C; rewrite C in HP; discriminate).
  set (p := fun y => lg_lt (Lg (mq y) 0) (Lg M 1)).
  assert (Hp : forall y, p y = true <-> (mq y * mq y < M)%Q).
  { intros y. unfold p. rewrite lg_lt_01. apply Qlt_bool_iff. }
  destruct (prefix_len_spec p (series k)) as [Hle Hiff].
  { intros i j Hij Hj. apply Hp. apply Hp in Hj.
    exact (mq_antitone M i j Hij Hj). }
  fold (NN k) in Hle, Hiff.
  set (i0 := prefix_len p (series k)) in *.
  destruct (pos_dec k z) as [Hz Hi].
  remember (z / Nz k) as d. remember (Z.to_nat (z mod Nz k)) as i.
  rewrite Hz. clear Heqd Heqi Hz.
  pose proof (val_sq_dec d i Hi) as [V1 V2].
  set (v := val k (d * Nz k + Z.of_nat i)) in *.
  assert (HN : Z.of_nat (NN k) = Nz k) by reflexivity.
  destruct (Z.lt_trichotomy d d0) as [Hd|[Hd|Hd]].
  - assert (pow10 (2 * d + 2) <= pow10 (2 * d0))%Q by (apply pow10_le; lia).
    split; intros C; exfalso; [nia | lra].
  - subst d. specialize (Hiff i Hi). rewrite Hp in Hiff.
    pose proof (mq_sq d0 i Hi) as Emq. fold v in Emq. fold P in Emq.
    split; intros C.
    + assert (~ (i < i0)%nat) by lia.
      assert (~ (mq (tb k i) * mq (tb k i) < M)%Q) by tauto.
      apply Qnot_lt_le in H0. nra.
    + assert (~ (mq (tb k i) * mq (tb k i) < M)%Q) by (intros C'; nra).
      assert (~ (i < i0)%nat) by tauto. lia.
  - assert (pow10 (2 * d0 + 2) <= pow10 (2 * d))%Q by (apply pow10_le; lia).
    split; intros C; [lra | nia].
Qed.

Lemma hi_pos_spec (B : Q) : (0 < B)%Q ->
  forall z, z < hi_pos B <-> (val k z * val k z <= B)%Q.
Proof.
  intros HB z.
  unfold hi_pos. rewrite decade_mantissa_1, mantissa_table, bisect_right_map.
  pose proof (decade_bounds B HB) as [HB1 HB2].
  set (d0 := floor_log10 B / 2) in *.
  set (P := pow10 (d0 * 2)).
  assert (HP : (0 < P)%Q) by apply pow10_pos.
  set (M := (B / P)%Q).
  assert (EM : (M * P == B)%Q) by (unfold M; field; intros C; rewrite C in HP; discriminate).
  set (p := fun y => lg_le (Lg (mq y) 0) (Lg M 1)).
  assert (Hp : forall y, p y = true <-> (mq y * mq y <= M)%Q).
  { intros y. unfold p. rewrite lg_le_01. apply Qle_bool_iff. }
  destruct (prefix_len_spec p (series k)) as [Hle Hiff].
  { intros i j Hij Hj. apply Hp. apply Hp in Hj.
    exact (mq_antitone_le M i j Hij Hj). }
  fold (NN k) in Hle, Hiff.
  set (i0 := prefix_len p (series k)) in *.
  destruct (pos_dec k z) as [Hz Hi].
  remember (z / Nz k) as d. remember (Z.to_nat (z mod Nz k)) as i.
  rewrite Hz. clear Heqd Heqi Hz.
  pose proof (val_sq_dec d i Hi) as [V1 V2].
  set (v := val k (d * Nz k + Z.of_nat i)) in *.
  assert (HN : Z.of_nat (NN k) = Nz k) by reflexivity.
  destruct (Z.lt_trichotomy d d0) as [Hd|[Hd|Hd]].
  - assert (pow10 (2 * d + 2) <= pow10 (2 * d0))%Q by (apply pow10_le; lia).
    split; intros C; [lra | nia].
  - subst d. specialize (Hiff i Hi). rewrite Hp in Hiff.
    pose proof (mq_sq d0 i Hi) as Emq. fold v in Emq. fold P in Emq.
    split; intros C.
    + assert ((i < i0)%nat) by lia.
      assert ((mq (tb k i) * mq (tb k i) <= M)%Q) by tauto. nra.
    + assert ((mq (tb k i) * mq (tb k i) <= M)%Q) by nra.
      assert ((i < i0)%nat) by tauto. lia.
  - assert (pow10 (2 * d0 + 2) <= pow10 (2 * d))%Q by (apply pow10_le; lia).
    split; intros C; exfalso; [nia | lra].
Qed.

End Positions.

(** ** [range] over integers and over list indices *)

Lemma zrange_nil (a b : Z) : b <= a -> zrange a b = [].
Proof. intros H. unfold zrange. replace (Z.to_nat (b - a)) with O by lia. reflexivity. Qed.

Lemma zrange_cons (a b : Z) : a < b -> zrange a b = a :: zrange (a + 1) b.
Proof.
  intros H. unfold zrange.
  replace (Z.to_nat (b - a)) with (S (Z.to_nat (b - (a + 1)))) by lia.
  cbn [seq map]. f_equal; [lia|].
  rewrite <- seq_shift, map_map. apply map_ext. intros n. lia.
Qed.

Lemma zrange_app (a b c : Z) : a <= b <= c -> zrange a c = zrange a b ++ zrange b c.
Proof.
  intros H. remember (Z.to_nat (b - a)) as n eqn:En. revert a En H.
  induction n as [|n IH]; intros a En H.
  - replace b with a by lia. rewrite (zrange_nil a a) by lia. reflexivity.
  - rewrite (zrange_cons a c) by lia. rewrite (zrange_cons a b) by lia.
    rewrite (IH (a + 1)) by lia. reflexivity.
Qed.

Lemma in_zrange (a b z : Z) : In z (zrange a b) <-> a <= z < b.
Proof.
  unfold zrange. rewrite in_map_iff. split.
  - intros [n [<- Hn]]. apply in_seq in Hn. lia.
  - intros H. exists (Z.to_nat (z - a)). split; [lia|]. apply in_seq. lia.
Qed.

Lemma length_zrange (a b : Z) : length (zrange a b) = Z.to_nat (b - a).
Proof. unfold zrange. rewrite length_map, length_seq. reflexivity. Qed.

Lemma map_seq_shift (f : nat -> Z) (n b : nat) :
  map f (seq b n) = map (fun m => f (b + m)%nat) (seq 0 n).
Proof.
  revert b; induction n as [|n IH]; intros b; [reflexivity|].
  cbn [seq map]. rewrite IH, <- seq_shift, map_map. f_equal; [f_equal; lia|].
  apply map_ext. intros m. f_equal. lia.
Qed.

Lemma nrange_map (c : Z) (b e : nat) :
  map (fun i => c + Z.of_nat i) (nrange b e) = zrange (c + Z.of_nat b) (c + Z.of_nat e).
Proof.
  unfold nrange, zrange. rewrite map_seq_shift.
  replace (Z.to_nat (c + Z.of_nat e - (c + Z.of_nat b))) with (e - b)%nat by lia.
  apply map_ext. intros m. lia.
Qed.

Lemma flat_map_ext_in {A B} (f g : A -> list B) (l : list A) :
  (forall x, In x l -> f x = g x) -> flat_map f l = flat_map g l.
Proof.
  induction l as [|a t IH]; intros H; simpl; [reflexivity|].
  rewrite H by (left; reflexivity). rewrite IH by (intros; apply H; right; assumption).
  reflexivity.
Qed.

(** Keeping the positions of [[a, b)] that satisfy an interval test. *)
Lemma filter_zrange (P : Z -> bool) (a b a' b' : Z) :
  (forall z, a <= z < b -> (P z = true <-> a' <= z < b')) ->
  filter P (zrange a b) = zrange (Z.max a a') (Z.min b b').
Proof.
  remember (Z.to_nat (b - a)) as n eqn:En. revert a En.
  induction n as [|n IH]; intros a En H.
  - rewrite zrange_nil by lia. rewrite zrange_nil by lia. reflexivity.
  - rewrite (zrange_cons a b) by lia. cbn [filter].
    rewrite (IH (a + 1)) by (try lia; intros z Hz; apply H; lia).
    destruct (P a) eqn:Ea.
    + apply H in Ea; [|lia].
      rewrite (zrange_cons (Z.max a a')) by lia.
      f_equal; [lia|]. f_equal; lia.
    + assert (~ (a' <= a < b')) by (rewrite <- H by lia; congruence).
      destruct (Z.lt_ge_cases a a') as [Ha|Ha].
      * f_equal; lia.
      * rewrite !zrange_nil by lia. reflexivity.
Qed.

(** ** Rounding a standard value to its significant figures *)

Lemma Qabs_pos_eq (x : Q) : (0 < x)%Q -> Qabs x = x.
Proof. destruct x as [n d]. unfold Qlt, Qabs. simpl. intros H. f_equal. lia. Qed.

Lemma round_half_even_int (q : Q) (m : Z) : (q == inject_Z m)%Q -> round_half_even q = m.
Proof.
  intros H. unfold round_half_even.
  assert (Hf : Qfloor q = m) by (rewrite H; apply Qfloor_Z).
  rewrite Hf.
  assert (Hr : Qlt_bool (q - inject_Z m) (1 # 2) = true).
  { apply Qlt_bool_iff. rewrite H. ring_simplify. reflexivity. }
  rewrite Hr. reflexivity.
Qed.

Lemma round_sig_val (k : ESeries) (z : Z) : _round_sig (val k z) (sdec k + 1) = vq k z.
Proof.
  pose proof (val_pos k z) as Hp.
  unfold _round_sig.
  assert (E0 : Qeq_bool (val k z) 0 = false).
  { destruct (Qeq_bool (val k z) 0) eqn:E; [|reflexivity].
    apply Qeq_bool_iff in E. rewrite E in Hp. discriminate. }
  rewrite E0, Qabs_pos_eq by exact Hp.
  assert (Ef : lg_floor (log10_Q (val k z)) = z / Nz k).
  { unfold lg_floor, log10_Q. cbn [lg_arg lg_shift]. rewrite Z.div_1_r.
    apply floor_log10_unique, val_bounds. }
  rewrite Ef. unfold py_round, vq. apply Qred_complete.
  set (n := sdec k + 1 - z / Nz k - 1).
  assert (Hx : (val k z * pow10 n == inject_Z (tb k (Z.to_nat (z mod Nz k))))%Q).
  { unfold val, n. rewrite <- Qmult_assoc, <- pow10_add.
    replace (z / Nz k - sdec k + (sdec k + 1 - z / Nz k - 1)) with 0 by lia.
    unfold pow10. simpl. ring. }
  rewrite (round_half_even_int _ _ Hx), <- Hx.
  pose proof (pow10_pos n). field. intros C. rewrite C in H. discriminate.
Qed.

(** ** The decade loop of [erange] *)

Section Loop.

Variable k : ESeries.

(** What the loop body yields at position [z], for bounds [sqrt S] and [sqrt T]. *)
Definition sel (S T : Q) (z : Z) : list Q :=
  if Qle_bool S (vq k z * vq k z) && Qle_bool (vq k z * vq k z) T then [vq k z] else [].

Lemma vq_pos (z : Z) : (0 < vq k z)%Q.
Proof. unfold vq. rewrite Qred_correct. apply val_pos. Qed.

Lemma of_Q_vq (z : Z) : of_Q (vq k z) = PNum false (vq k z * vq k z).
Proof.
  unfold of_Q, Qlt_bool. pose proof (vq_pos z).
  rewrite (proj2 (Qle_bool_iff 0 (vq k z))) by lra. reflexivity.
Qed.

Lemma erange_decade_pos (S T : Q) (d : Z) (b e : nat) : (e <= NN k)%nat ->
  erange_decade (series k) (sdec k) (PNum false S) (PNum false T) d b e =
  flat_map (sel S T) (zrange (d * Nz k + Z.of_nat b) (d * Nz k + Z.of_nat e)).
Proof.
  intros He. unfold erange_decade. rewrite <- nrange_map.
  rewrite !flat_map_concat_map, map_map. f_equal. apply map_ext_in.
  intros i Hi. unfold nrange in Hi. apply in_seq in Hi.
  change (nth i (series k) 0) with (tb k i).
  rewrite <- val_dec by lia. rewrite round_sig_val, of_Q_vq. reflexivity.
Qed.

Lemma full_decades (h : Z -> list Q) (m n : Z) : m <= n ->
  flat_map (fun d => flat_map h (zrange (d * Nz k + Z.of_nat 0) (d * Nz k + Z.of_nat (NN k)))) (zrange m n) =
  flat_map h (zrange (m * Nz k) (n * Nz k)).
Proof.
  pose proof (Nz_ge3 k) as HN. unfold Nz in *.
  remember (Z.to_nat (n - m)) as c eqn:Ec. revert m Ec.
  induction c as [|c IH]; intros m Ec H.
  - assert (n = m) by lia. subst n. rewrite !zrange_nil by lia. reflexivity.
  - rewrite (zrange_cons m n) by lia. cbn [flat_map].
    rewrite (IH (m + 1)) by lia.
    rewrite (zrange_app (m * Z.of_nat (NN k)) ((m + 1) * Z.of_nat (NN k))) by nia.
    rewrite flat_map_app. f_equal. f_equal. f_equal; lia.
Qed.

Lemma decade_loop (h : Z -> list Q) (sd ed : Z) (si ei : nat) :
  (si <= NN k)%nat -> (ei <= NN k)%nat ->
  flat_map (fun d =>
      flat_map h (zrange (d * Nz k + Z.of_nat (if d =? sd then si else O))
                         (d * Nz k + Z.of_nat (if d =? ed then ei else NN k))))
    (zrange sd (ed + 1)) =
  flat_map h (zrange (sd * Nz k + Z.of_nat si) (ed * Nz k + Z.of_nat ei)).
Proof.
  intros Hsi Hei. pose proof (Nz_ge3 k) as HN.
  assert (HNN : Nz k = Z.of_nat (NN k)) by reflexivity.
  destruct (Z.lt_trichotomy ed sd) as [Hd|[Hd|Hd]].
  - rewrite !zrange_nil by nia. reflexivity.
  - subst ed. rewrite zrange_cons by lia. rewrite (zrange_nil (sd + 1)) by lia.
    cbn [flat_map]. rewrite Z.eqb_refl, app_nil_r. reflexivity.
  - rewrite (zrange_app sd ed (ed + 1)) by lia.
    rewrite (zrange_cons sd ed) by lia.
    rewrite (zrange_cons ed (ed + 1)), (zrange_nil (ed + 1)) by lia.
    rewrite flat_map_app. cbn [flat_map].
    rewrite Z.eqb_refl, (proj2 (Z.eqb_neq sd ed)) by lia.
    rewrite (proj2 (Z.eqb_neq ed sd)) by lia. rewrite Z.eqb_refl, !app_nil_r.
    rewrite (flat_map_ext_in _
      (fun d => flat_map h (zrange (d * Nz k + Z.of_nat 0) (d * Nz k + Z.of_nat (NN k)))) (zrange (sd + 1) ed)).
    2: { intros d Hd'. apply in_zrange in Hd'. cbv beta.
         rewrite (proj2 (Z.eqb_neq d sd)), (proj2 (Z.eqb_neq d ed)) by lia. reflexivity. }
    rewrite full_decades by lia.
    rewrite <- !flat_map_app. f_equal.
    assert ((sd + 1) * Nz k <= ed * Nz k) by (apply Z.mul_le_mono_nonneg_r; lia).
    rewrite (zrange_app (sd * Nz k + Z.of_nat si) ((sd + 1) * Nz k) (ed * Nz k + Z.of_nat ei)) by lia.
    rewrite (zrange_app ((sd + 1) * Nz k) (ed * Nz k) (ed * Nz k + Z.of_nat ei)) by lia.
    replace (ed * Nz k + Z.of_nat 0) with (ed * Nz k) by lia.
    replace (sd * Nz k + Z.of_nat (NN k)) with ((sd + 1) * Nz k) by lia.
    symmetry. apply app_assoc.
Qed.

End Loop.

(** ** [erange] on valid bounds *)

Definition MIN_sq : Q := (1 # 10 ^ 200) * (1 # 10 ^ 200).

Lemma MIN_eq : _MINIMUM_E_VALUE = PNum false MIN_sq.
Proof. vm_compute. reflexivity. Qed.

Lemma bisect_left_le (a : list lg) (x : lg) : (bisect_left a x <= length a)%nat.
Proof. induction a as [|h t IH]; simpl; [lia|]. destruct (lg_lt h x); lia. Qed.

Lemma bisect_right_le (a : list lg) (x : lg) : (bisect_right a x <= length a)%nat.
Proof. induction a as [|h t IH]; simpl; [lia|]. destruct (lg_le h x); lia. Qed.

Section Erange.

Variable k : ESeries.

(** Twice the [epsilon] of [erange], as a logarithm's argument: the ratio of
    the last two table entries. *)
Definition rho : Q := (mq k (tb k (NN k - 1)) / mq k (tb k (NN k - 2)))%Q.

Lemma series_facts :
  py_get (LOG10_MANTISSA_E k) (-1) = Some (Lg (mq k (tb k (NN k - 1))) 0) /\
  py_get (LOG10_MANTISSA_E k) (-2) = Some (Lg (mq k (tb k (NN k - 2))) 0) /\
  py_get (series k) 0 = Some (tb k 0) /\
  _try_integral (log10_Q (inject_Z (tb k 0))) = Ok (sdec k) /\
  series k = tb k 0 :: tl (series k) /\
  Qle_bool 1 rho = true /\ Qeq_bool (mq k (tb k 0)) 1 = true.
Proof. unfold rho, mq, tb, NN, sdec. destruct k; vm_compute; repeat split; reflexivity. Qed.

Lemma rho_ge1 : (1 <= rho)%Q.
Proof. apply Qle_bool_iff. apply series_facts. Qed.

Lemma length_mantissa : length (LOG10_MANTISSA_E k) = NN k.
Proof. unfold LOG10_MANTISSA_E, NN. apply length_map. Qed.

Lemma hi_index_pos (B : Q) : (0 < B)%Q ->
  bisect_right (LOG10_MANTISSA_E k) (snd (_decade_mantissa (Lg B 1))) <> O.
Proof.
  intros HB. rewrite decade_mantissa_1, mantissa_table. cbn [snd].
  destruct series_facts as [_ [_ [_ [_ [Hs [_ H1]]]]]].
  apply Qeq_bool_iff in H1. rewrite Hs. cbn [map bisect_right]. rewrite lg_le_01.
  pose proof (decade_bounds B HB) as [HB1 _].
  set (P := pow10 (floor_log10 B / 2 * 2)).
  assert (HP : (0 < P)%Q) by apply pow10_pos.
  assert (E : (P == pow10 (2 * (floor_log10 B / 2)))%Q) by (unfold P; f_equiv; lia).
  assert (HM : (1 <= B / P)%Q).
  { apply Qle_shift_div_l; [exact HP|]. rewrite E. lra. }
  rewrite (proj2 (Qle_bool_iff _ _)); [discriminate|]. rewrite H1. exact HM.
Qed.

Lemma erange_ok (S T : Q) : (MIN_sq <= S)%Q -> (S <= T)%Q ->
  erange k (PNum false S) (PNum false T) =
  Ok (flat_map (sel k S T) (zrange (lo_pos k (S / rho)) (hi_pos k (T * rho)))).
Proof.
  intros HS HT.
  assert (HS0 : (0 < S)%Q) by (eapply Qlt_le_trans; [|exact HS]; reflexivity).
  pose proof rho_ge1 as Hr1.
  destruct series_facts as [L1 [L2 [F0 [TI _]]]].
  unfold erange. cbn [isfinite negb]. rewrite MIN_eq. cbn [pf_lt pf_le signed_sq].
  rewrite (proj2 (Qlt_bool_false S MIN_sq) HS).
  rewrite (proj2 (Qlt_bool_false T MIN_sq)) by lra.
  rewrite (proj2 (Qle_bool_iff S T) HT). cbn [negb].
  rewrite L1, L2, F0. cbn [bind].
  change (lg_sub (log10_pf (PNum false S)) (lg_half (lg_sub (Lg (mq k (tb k (NN k - 1))) 0)
    (Lg (mq k (tb k (NN k - 2))) 0)))) with (Lg (S / rho) 1).
  change (lg_add (log10_pf (PNum false T)) (lg_half (lg_sub (Lg (mq k (tb k (NN k - 1))) 0)
    (Lg (mq k (tb k (NN k - 2))) 0)))) with (Lg (T * rho) 1).
  assert (Hpos : (0 < T * rho)%Q) by nra.
  pose proof (hi_index_pos (T * rho) Hpos) as Hne.
  unfold lo_pos, hi_pos.
  destruct (_decade_mantissa (Lg (S / rho) 1)) as [sd0 sm].
  destruct (_decade_mantissa (Lg (T * rho) 1)) as [ed tm]. cbn [snd] in Hne.
  cbv beta iota zeta.
  rewrite (proj2 (Nat.eqb_neq _ _) Hne), TI. cbn [bind]. rewrite length_mantissa.
  pose proof (bisect_left_le (LOG10_MANTISSA_E k) sm) as Hsi.
  pose proof (bisect_right_le (LOG10_MANTISSA_E k) tm) as Hei.
  rewrite length_mantissa in Hsi, Hei.
  set (si := bisect_left (LOG10_MANTISSA_E k) sm) in *.
  set (ei := bisect_right (LOG10_MANTISSA_E k) tm) in *.
  assert (Hloop : forall sd s, (s <= NN k)%nat ->
    flat_map (fun decade => erange_decade (series k) (sdec k) (PNum false S) (PNum false T) decade
        (if decade =? sd then s else O) (if decade =? ed then ei else NN k))
      (zrange sd (ed + 1)) =
    flat_map (sel k S T) (zrange (sd * Nz k + Z.of_nat s) (ed * Nz k + Z.of_nat ei))).
  { intros sd s Hs. rewrite <- decade_loop by assumption. apply flat_map_ext_in.
    intros d _. apply erange_decade_pos. destruct (d =? ed); lia. }
  destruct (si =? NN k)%nat eqn:E; cbv iota; rewrite Hloop by lia; [|reflexivity].
  apply Nat.eqb_eq in E. unfold Nz. rewrite E. do 3 f_equal. lia.
Qed.

Lemma vq_sq (z : Z) : (vq k z * vq k z == val k z * val k z)%Q.
Proof. unfold vq. rewrite Qred_correct. reflexivity. Qed.

Lemma sel_filter (S T : Q) (l : list Z) :
  flat_map (sel k S T) l =
  map (vq k) (filter (fun z => Qle_bool S (vq k z * vq k z) && Qle_bool (vq k z * vq k z) T) l).
Proof.
  induction l as [|z t IH]; [reflexivity|]. cbn [flat_map filter]. rewrite IH. unfold sel.
  destruct (_ && _); reflexivity.
Qed.

(** [erange] on valid bounds [sqrt S <= sqrt T]: the standard values from the
    first one at or above [sqrt S] to the last one at or below [sqrt T]. *)
Lemma erange_spec (S T : Q) : (MIN_sq <= S)%Q -> (S <= T)%Q ->
  erange k (PNum false S) (PNum false T) = Ok (map (vq k) (zrange (lo_pos k S) (hi_pos k T))).
Proof.
  intros HS HT.
  assert (HS0 : (0 < S)%Q) by (eapply Qlt_le_trans; [|exact HS]; reflexivity).
  pose proof rho_ge1 as Hr1.
  assert (HSr : (0 < S / rho)%Q) by (apply Qlt_shift_div_l; lra).
  assert (HSr' : (S / rho <= S)%Q) by (apply Qle_shift_div_r; nra).
  assert (HTr : (0 < T * rho)%Q) by nra.
  rewrite erange_ok by assumption. f_equal. rewrite sel_filter. f_equal.
  rewrite (filter_zrange _ _ _ (lo_pos k S) (hi_pos k T)).
  - f_equal.
    + apply Z.max_r. apply (lo_pos_spec k (S / rho) HSr).
      pose proof (proj1 (lo_pos_spec k S HS0 (lo_pos k S)) (Z.le_refl _)). lra.
    + apply Z.min_r.
      assert (H : hi_pos k T - 1 < hi_pos k (T * rho)).
      { apply (hi_pos_spec k (T * rho) HTr).
        pose proof (proj1 (hi_pos_spec k T ltac:(lra) (hi_pos k T - 1)) ltac:(lia)). nra. }
      lia.
  - intros z _. rewrite andb_true_iff, !Qle_bool_iff, !vq_sq.
    rewrite (lo_pos_spec k S HS0), (hi_pos_spec k T ltac:(lra)). reflexivity.
Qed.

End Erange.

(** ** Consequences of the characterisation of [erange] *)

Lemma of_Q_pos (q : Q) : (0 < q)%Q -> of_Q q = PNum false (q * q).
Proof.
  intros H. unfold of_Q, Qlt_bool. rewrite (proj2 (Qle_bool_iff 0 q)) by lra. reflexivity.
Qed.

Lemma MIN_sq_pos : (0 < MIN_sq)%Q.
Proof. reflexivity. Qed.

Lemma MIN_sq_of (q : Q) : (1 # 10 ^ 200 <= q)%Q -> (MIN_sq <= q * q)%Q.
Proof.
  intros H. unfold MIN_sq. assert (0 < 1 # 10 ^ 200)%Q by reflexivity. nra.
Qed.

Lemma sorted_vq (k : ESeries) (a b : Z) : Sorted Qlt (map (vq k) (zrange a b)).
Proof.
  remember (Z.to_nat (b - a)) as n eqn:En. revert a En.
  induction n as [|n IH]; intros a En.
  - rewrite zrange_nil by lia. constructor.
  - rewrite (zrange_cons a b) by lia. cbn [map]. constructor; [apply IH; lia|].
    destruct (Z.lt_ge_cases (a + 1) b) as [H|H].
    + rewrite (zrange_cons (a + 1) b) by exact H. cbn [map]. constructor.
      unfold vq. rewrite !Qred_correct. apply val_lt. lia.
    + rewrite zrange_nil by lia. constructor.
Qed.

Lemma StronglySorted_Qlt_NoDup (l : list Q) : StronglySorted Qlt l -> NoDup l.
Proof.
  induction 1 as [|a l Hs IH Hf]; constructor; [|exact IH].
  intros Hin. rewrite Forall_forall in Hf. specialize (Hf a Hin). lra.
Qed.

Lemma pos_sq_le (a b : Q) : (0 < a)%Q -> (0 < b)%Q -> (a * a <= b * b)%Q -> (a <= b)%Q.
Proof. intros Ha Hb H. nra. Qed.

Lemma pos_sq_eq (a b : Q) : (0 < a)%Q -> (0 < b)%Q -> (a * a == b * b)%Q -> (a == b)%Q.
Proof.
  intros Ha Hb H. apply Qle_antisym; apply pos_sq_le; try assumption; lra.
Qed.

Lemma ESeries_value_Nz (k : ESeries) : ESeries_value k = Nz k.
Proof. destruct k; reflexivity. Qed.

Lemma lt_iff_eq (x y : Z) : (forall z, z < x <-> z < y) -> x = y.
Proof.
  intros H. destruct (Z.lt_trichotomy x y) as [C|[C|C]]; [|exact C|].
  - pose proof (proj2 (H x) C). lia.
  - pose proof (proj1 (H y) C). lia.
Qed.

(** One decade up is [N] positions up. *)
Lemma hi_pos_100 (k : ESeries) (A : Q) : (0 < A)%Q ->
  hi_pos k (100 * A) = hi_pos k A + Nz k.
Proof.
  intros HA. apply lt_iff_eq. intros z.
  rewrite (hi_pos_spec k (100 * A)) by lra.
  assert (E : (val k z == 10 * val k (z - Nz k))%Q).
  { replace z with ((z - Nz k) + 1 * Nz k) at 1 by lia. rewrite val_shift. reflexivity. }
  rewrite E. assert (z < hi_pos k A + Nz k <-> z - Nz k < hi_pos k A) as -> by lia.
  rewrite (hi_pos_spec k A HA). split; intros; nra.
Qed.

Lemma lo_hi_gap (k : ESeries) (A : Q) : (0 < A)%Q ->
  lo_pos k A <= hi_pos k A <= lo_pos k A + 1 /\
  (hi_pos k A = lo_pos k A + 1 <-> (val k (lo_pos k A) * val k (lo_pos k A) == A)%Q).
Proof.
  intros HA. set (lo := lo_pos k A). set (h0 := hi_pos k A).
  pose proof (lo_pos_spec k A HA) as L. pose proof (hi_pos_spec k A HA) as H.
  fold lo in L. fold h0 in H.
  assert (Hlo : (A <= val k lo * val k lo)%Q) by (apply L; lia).
  assert (Hbelow : (val k (lo - 1) * val k (lo - 1) < A)%Q).
  { apply Qnot_le_lt. intros C. apply L in C. lia. }
  assert (Hv : (val k (lo - 1) < val k lo)%Q) by (apply val_lt; lia).
  assert (Hv' : (val k lo < val k (lo + 1))%Q) by (apply val_lt; lia).
  pose proof (val_pos k (lo - 1)). pose proof (val_pos k lo).
  assert (G1 : lo - 1 < h0) by (apply H; lra).
  assert (G2 : ~ (lo + 1 < h0)).
  { intros C. apply H in C. nra. }
  split; [lia|]. split.
  - intros E. assert (G3 : lo < h0) by lia. apply H in G3. lra.
  - intros E. assert (lo < h0) by (apply H; lra). lia.
Qed.

(** ** The stable sort *)

Section Sort.

Context {A : Type} (key : A -> Q).

Lemma insert_by_perm (x : A) (l : list A) : Permutation (insert_by key x l) (x :: l).
Proof.
  induction l as [|h t IH]; simpl; [reflexivity|].
  destruct (Qlt_bool (key x) (key h)); [reflexivity|].
  rewrite IH. apply perm_swap.
Qed.

Lemma sorted_by_perm_acc (l acc : list A) :
  Permutation (fold_left (fun acc x => insert_by key x acc) l acc) (l ++ acc).
Proof.
  revert acc; induction l as [|x t IH]; intros acc; simpl; [reflexivity|].
  rewrite IH, insert_by_perm. symmetry. apply Permutation_middle.
Qed.

Lemma sorted_by_perm (l : list A) : Permutation (sorted_by key l) l.
Proof. unfold sorted_by. rewrite sorted_by_perm_acc, app_nil_r. reflexivity. Qed.

Lemma insert_by_sorted (x : A) (l : list A) :
  StronglySorted (fun a b => key a <= key b)%Q l ->
  StronglySorted (fun a b => key a <= key b)%Q (insert_by key x l).
Proof.
  induction l as [|h t IH]; intros Hs; simpl.
  - repeat constructor.
  - apply StronglySorted_inv in Hs as [Ht Hh].
    destruct (Qlt_bool (key x) (key h)) eqn:E.
    + apply Qlt_bool_iff in E. constructor; [constructor; assumption|].
      constructor; [lra|]. rewrite Forall_forall in *. intros y Hy.
      specialize (Hh y Hy). lra.
    + unfold Qlt_bool in E. apply negb_false_iff, Qle_bool_iff in E.
      constructor; [apply IH; exact Ht|].
      rewrite Forall_forall in *. intros y Hy.
      eapply Permutation_in in Hy; [|apply insert_by_perm].
      destruct Hy as [<-|Hy]; [exact E | apply Hh; exact Hy].
Qed.

Lemma sorted_by_sorted (l : list A) :
  StronglySorted (fun a b => key a <= key b)%Q (sorted_by key l).
Proof.
  unfold sorted_by.
  assert (G : forall acc, StronglySorted (fun a b => key a <= key b)%Q acc ->
    StronglySorted (fun a b => key a <= key b)%Q (fold_left (fun acc x => insert_by key x acc) l acc)).
  { induction l as [|x t IH]; intros acc Hacc; simpl; [exact Hacc|].
    apply IH, insert_by_sorted, Hacc. }
  apply G. constructor.
Qed.

End Sort.

(** The order [sorted(enumerate(ds), key=lambda x: x[1])] produces: by value,
    and by index among equal values. *)
Definition lex (a b : nat * Q) : Prop :=
  (snd a < snd b)%Q \/ ((snd a == snd b)%Q /\ (fst a < fst b)%nat).

Lemma insert_lex (x : nat * Q) (l : list (nat * Q)) :
  StronglySorted lex l -> Forall (fun y => (fst y < fst x)%nat) l ->
  StronglySorted lex (insert_by snd x l).
Proof.
  induction l as [|h t IH]; intros Hs Hf; simpl.
  - repeat constructor.
  - apply StronglySorted_inv in Hs as [Ht Hh]. apply Forall_cons_iff in Hf as [Hfh Hft].
    destruct (Qlt_bool (snd x) (snd h)) eqn:E.
    + apply Qlt_bool_iff in E. constructor; [constructor; assumption|].
      constructor; [left; exact E|]. rewrite Forall_forall in *. intros y Hy.
      specialize (Hh y Hy). unfold lex in *. left. destruct Hh as [H|[H _]]; lra.
    + unfold Qlt_bool in E. apply negb_false_iff, Qle_bool_iff in E.
      constructor; [apply IH; assumption|].
      rewrite Forall_forall in *. intros y Hy.
      eapply Permutation_in in Hy; [|apply insert_by_perm].
      destruct Hy as [<-|Hy]; [|apply Hh; exact Hy].
      unfold lex. destruct (Qlt_le_dec (snd h) (snd x)) as [C|C]; [left; exact C|].
      right. split; [lra | exact Hfh].
Qed.

Lemma sorted_by_lex (l : list (nat * Q)) :
  StronglySorted (fun a b => (fst a < fst b)%nat) l -> StronglySorted lex (sorted_by snd l).
Proof.
  unfold sorted_by.
  assert (G : forall acc, StronglySorted lex acc ->
    (forall y x, In y acc -> In x l -> (fst y < fst x)%nat) ->
    StronglySorted (fun a b => (fst a < fst b)%nat) l ->
    StronglySorted lex (fold_left (fun acc x => insert_by snd x acc) l acc)).
  { induction l as [|x t IH]; intros acc Hacc Hlt Hl; simpl; [exact Hacc|].
    apply StronglySorted_inv in Hl as [Ht Hx].
    apply IH; [| |exact Ht].
    - apply insert_lex; [exact Hacc|]. apply Forall_forall. intros y Hy.
      apply Hlt; [exact Hy | left; reflexivity].
    - intros y z Hy Hz. eapply Permutation_in in Hy; [|apply insert_by_perm].
      destruct Hy as [<-|Hy].
      + rewrite Forall_forall in Hx. apply Hx, Hz.
      + apply Hlt; [exact Hy | right; exact Hz]. }
  intros Hl. apply G; [constructor | intros y x [] | exact Hl].
Qed.

Lemma enum_cons {A} (s : nat) (a : A) (l : list A) :
  combine (seq s (length (a :: l))) (a :: l) = (s, a) :: combine (seq (S s) (length l)) l.
Proof. reflexivity. Qed.

Lemma enum_in {A} (s : nat) (l : list A) (i : nat) (a : A) :
  In (i, a) (combine (seq s (length l)) l) -> (s <= i)%nat /\ nth_error l (i - s) = Some a.
Proof.
  revert s; induction l as [|b t IH]; intros s H; [destruct H|].
  rewrite enum_cons in H. destruct H as [E|H].
  - injection E as <- <-. rewrite Nat.sub_diag. split; [lia | reflexivity].
  - apply IH in H as [H1 H2]. split; [lia|].
    replace (i - s)%nat with (S (i - S s)) by lia. exact H2.
Qed.

Lemma enum_in_rev {A} (s : nat) (l : list A) (i : nat) (a : A) :
  nth_error l i = Some a -> In (s + i, a)%nat (combine (seq s (length l)) l).
Proof.
  revert s i; induction l as [|b t IH]; intros s i H; [destruct i; discriminate|].
  rewrite enum_cons. destruct i as [|i].
  - injection H as <-. left. f_equal. lia.
  - right. replace (s + S i)%nat with (S s + i)%nat by lia. apply IH, H.
Qed.

Lemma enum_sorted {A} (s : nat) (l : list A) :
  StronglySorted (fun a b => (fst a < fst b)%nat) (combine (seq s (length l)) l).
Proof.
  revert s; induction l as [|b t IH]; intros s; [constructor|].
  rewrite enum_cons. constructor; [apply IH|]. apply Forall_forall. intros [i a] H.
  apply enum_in in H. simpl. lia.
Qed.

Lemma enum_fst {A} (s : nat) (l : list A) : map fst (combine (seq s (length l)) l) = seq s (length l).
Proof.
  revert s; induction l as [|b t IH]; intros s; [reflexivity|].
  rewrite enum_cons. simpl. f_equal. apply IH.
Qed.

Lemma StronglySorted_before {A} (R : A -> A -> Prop) (pre post : list A) (x : A) :
  StronglySorted R (pre ++ x :: post) -> forall y, In y pre -> R y x.
Proof.
  induction pre as [|a t IH]; intros H y Hy; [destruct Hy|].
  simpl in H. apply StronglySorted_inv in H as [H1 H2].
  destruct Hy as [<-|Hy]; [|apply IH; assumption].
  rewrite Forall_forall in H2. apply H2, in_or_app. right. left. reflexivity.
Qed.

(** An index is among the first [n] of the stable sort when fewer than [n]
    indices come before it in the (value, index) order. *)
Lemma top_n (ds : list Q) (n i : nat) (di : Q) (Sset : list nat) :
  nth_error ds i = Some di ->
  (forall j dj, nth_error ds j = Some dj -> lex (j, dj) (i, di) -> In j Sset) ->
  (length Sset < n)%nat ->
  In i (firstn n (map fst (sorted_by snd (enumerate ds)))).
Proof.
  intros Hi HS Hn. unfold enumerate.
  set (L := sorted_by snd (combine (seq 0 (length ds)) ds)).
  assert (HP : Permutation L (combine (seq 0 (length ds)) ds)) by apply sorted_by_perm.
  assert (HSS : StronglySorted lex L) by (apply sorted_by_lex, enum_sorted).
  assert (Hin : In (i, di) L).
  { eapply Permutation_in; [symmetry; exact HP|]. apply (enum_in_rev 0). exact Hi. }
  apply in_split in Hin as [pre [post Hsplit]].
  assert (HND : NoDup (map fst L)).
  { eapply Permutation_NoDup; [symmetry; apply Permutation_map; exact HP|].
    rewrite enum_fst. apply seq_NoDup. }
  rewrite Hsplit, map_app in HND. apply NoDup_app_remove_r in HND.
  assert (Hincl : incl (map fst pre) Sset).
  { intros j Hj. apply in_map_iff in Hj as [[j' dj] [<- Hj]].
    assert (Hl : lex (j', dj) (i, di)).
    { apply (StronglySorted_before lex pre post); [rewrite <- Hsplit; exact HSS | exact Hj]. }
    assert (HjL : In (j', dj) L) by (rewrite Hsplit; apply in_or_app; left; exact Hj).
    eapply Permutation_in in HjL; [|exact HP]. apply enum_in in HjL as [_ Hj'].
    rewrite Nat.sub_0_r in Hj'. apply (HS j' dj Hj' Hl). }
  pose proof (NoDup_incl_length HND Hincl) as Hlen. rewrite length_map in Hlen.
  rewrite Hsplit, map_app, firstn_app. apply in_or_app. right.
  rewrite length_map. replace (n - length pre)%nat with (S (n - length pre - 1)) by lia.
  left. reflexivity.
Qed.

Lemma nth_zrange (a b : Z) (j : nat) (d : Z) :
  (j < Z.to_nat (b - a))%nat -> nth j (zrange a b) d = a + Z.of_nat j.
Proof.
  intros H. unfold zrange.
  rewrite (nth_indep _ d (a + Z.of_nat 0)) by (rewrite length_map, length_seq; exact H).
  pose proof (map_nth (fun n : nat => a + Z.of_nat n) (seq 0 (Z.to_nat (b - a))) 0%nat j) as E.
  cbv beta in E. rewrite E, seq_nth by exact H. reflexivity.
Qed.

Lemma nth_error_zrange (a b : Z) (j : nat) :
  nth_error (zrange a b) j =
  if (j <? Z.to_nat (b - a))%nat then Some (a + Z.of_nat j) else None.
Proof.
  destruct (Nat.ltb_spec j (Z.to_nat (b - a))) as [H|H].
  - rewrite (nth_error_nth' _ 0) by (rewrite length_zrange; exact H). f_equal.
    apply nth_zrange, H.
  - apply nth_error_None. rewrite length_zrange. exact H.
Qed.

(** The order of [_nearest_n] on positions: by distance to [value], then by
    position. *)
Definition lexq (k : ESeries) (v : Q) (w z : Z) : Prop :=
  (Qabs (val k w - v) < Qabs (val k z - v))%Q \/
  ((Qabs (val k w - v) == Qabs (val k z - v))%Q /\ w < z).

Lemma Qabs_vq (k : ESeries) (v : Q) (w : Z) : (Qabs (vq k w - v) == Qabs (val k w - v))%Q.
Proof. unfold vq. rewrite Qred_correct. reflexivity. Qed.

Lemma nearest_in (k : ESeries) (v : Q) (lo hi z : Z) (n : nat) (Sset : list Z) :
  lo <= z < hi ->
  (forall w, lo <= w < hi -> lexq k v w z -> In w Sset) ->
  (length Sset < n)%nat ->
  In (vq k z) (_nearest_n (map (vq k) (zrange lo hi)) v (Z.of_nat n)).
Proof.
  intros Hz HS Hn. unfold _nearest_n.
  eapply Permutation_in; [symmetry; apply sorted_by_perm|].
  apply in_map_iff. exists (Z.to_nat (z - lo)). split.
  - rewrite (nth_indep (map (vq k) (zrange lo hi)) 0%Q (vq k 0))
      by (rewrite length_map, length_zrange; lia).
    rewrite map_nth. f_equal. rewrite nth_zrange by lia. lia.
  - rewrite Nat2Z.id.
    apply (top_n _ _ _ (Qabs (vq k z - v)) (map (fun w => Z.to_nat (w - lo)) Sset));
      [| |rewrite length_map; exact Hn].
    + rewrite !nth_error_map, nth_error_zrange.
      destruct (Nat.ltb_spec (Z.to_nat (z - lo)) (Z.to_nat (hi - lo))) as [H|H]; [|lia].
      cbn [option_map]. replace (lo + Z.of_nat (Z.to_nat (z - lo))) with z by lia. reflexivity.
    + intros j dj Hj Hl. rewrite !nth_error_map, nth_error_zrange in Hj.
      destruct (Nat.ltb_spec j (Z.to_nat (hi - lo))) as [H|H]; [|discriminate].
      cbn [option_map] in Hj.
      assert (Ed : dj = Qabs (vq k (lo + Z.of_nat j) - v)) by congruence. subst dj.
      apply in_map_iff. exists (lo + Z.of_nat j). split; [lia|].
      apply HS; [lia|]. unfold lex, lexq in *. cbn [fst snd] in Hl.
      rewrite !Qabs_vq in Hl. destruct Hl as [Hl|[Hl1 Hl2]]; [left; exact Hl|].
      right. split; [exact Hl1 | lia].
Qed.

(** ** Spacing of the standard values against [GEOMETRIC_SCALE_E] *)

Section Spacing.

Variable k : ESeries.

Definition g : Q := GEOMETRIC_SCALE_E k.
Definition g3 : Q := (g * g * g)%Q.

(** Three properties of consecutive standard values, checked on the first
    decade: the gap bound that defines [GEOMETRIC_SCALE_E], and two
    comparisons of distances between neighbours of a value. *)
Definition chk_gap_b (z : Z) : bool := Qle_bool (val k (z + 1)) (g * val k z).

Definition chk_i_b (z : Z) : bool :=
  negb (Qle_bool (val k (z + 3) * val k (z + 3)) (val k (z + 1) * val k (z + 1) * g3) &&
        Qlt_bool (val k (z + 3) + val k z) (2 * val k (z + 1))).

Definition chk_iis_b (z : Z) : bool :=
  negb (Qlt_bool (val k (z - 1) * val k (z - 1)) (val k (z - 3) * val k (z - 3) * g3) &&
        Qlt_bool (2 * val k (z - 1)) (val k z + val k (z - 3))).

Lemma checks_ok :
  forallb (fun z => chk_gap_b z && chk_i_b z && chk_iis_b z) (zrange 0 (Nz k)) = true /\
  Qle_bool 1 g = true.
Proof.
  unfold chk_gap_b, chk_i_b, chk_iis_b, g3, g, val, Nz, NN, tb, sdec.
  destruct k; vm_compute; split; reflexivity.
Qed.

Lemma g_ge1 : (1 <= g)%Q.
Proof. apply Qle_bool_iff, checks_ok. Qed.

Lemma g3_ge1 : (1 <= g3)%Q.
Proof. pose proof g_ge1. unfold g3. nra. Qed.

Lemma g_le_g3 : (g * g <= g3)%Q.
Proof. pose proof g_ge1. unfold g3. nra. Qed.

Lemma val_homog (z j : Z) :
  (val k (z + j) == pow10 (z / Nz k) * val k (z mod Nz k + j))%Q.
Proof.
  pose proof (Nz_ge3 k). rewrite <- val_shift. f_equiv.
  pose proof (Z.div_mod z (Nz k) ltac:(lia)). lia.
Qed.

Lemma checks_at (z : Z) :
  chk_gap_b (z mod Nz k) = true /\ chk_i_b (z mod Nz k) = true /\ chk_iis_b (z mod Nz k) = true.
Proof.
  pose proof (Nz_ge3 k) as HN. destruct checks_ok as [H _].
  rewrite forallb_forall in H.
  assert (Hin : In (z mod Nz k) (zrange 0 (Nz k))).
  { apply in_zrange. apply Z.mod_pos_bound. lia. }
  specialize (H _ Hin). apply andb_true_iff in H as [H H3]. apply andb_true_iff in H as [H1 H2].
  tauto.
Qed.

Lemma gap (z : Z) : (val k (z + 1) <= g * val k z)%Q.
Proof.
  destruct (checks_at z) as [H _]. unfold chk_gap_b in H. apply Qle_bool_iff in H.
  pose proof (val_homog z 1) as E1. pose proof (val_homog z 0) as E0.
  rewrite !Z.add_0_r in E0. pose proof (pow10_pos (z / Nz k)). nra.
Qed.

Lemma negb_andb_imp (b1 b2 : bool) : negb (b1 && b2) = true -> b1 = true -> b2 = false.
Proof. destruct b1, b2; simpl; congruence. Qed.

(** With [z+1] and [z+3] within the factor [g^(3/2)]: [z+1] is not farther
    from the midpoint of [z] and [z+3] than needed. *)
Lemma spread_i (z : Z) :
  (val k (z + 3) * val k (z + 3) <= val k (z + 1) * val k (z + 1) * g3)%Q ->
  (2 * val k (z + 1) <= val k (z + 3) + val k z)%Q.
Proof.
  intros H. destruct (checks_at z) as [_ [C _]]. unfold chk_i_b in C.
  pose proof (val_homog z 3) as E3. pose proof (val_homog z 1) as E1.
  pose proof (val_homog z 0) as E0. rewrite !Z.add_0_r in E0.
  set (P := pow10 (z / Nz k)) in *. assert (HP : (0 < P)%Q) by apply pow10_pos.
  set (i := z mod Nz k) in *.
  rewrite E3, E1 in H.
  assert (H' : (val k (i + 3) * val k (i + 3) <= val k (i + 1) * val k (i + 1) * g3)%Q).
  { assert (HP2 : (0 < P * P)%Q) by nra. nra. }
  apply Qle_bool_iff in H'. apply (negb_andb_imp _ _ C), Qlt_bool_false in H'.
  rewrite E3, E1, E0. nra.
Qed.

(** With [z-1] within the factor [g^(3/2)] of [z-3]: [z] is not above
    [2 val(z-1) - val(z-3)]. *)
Lemma spread_iis (z : Z) :
  (val k (z - 1) * val k (z - 1) < val k (z - 3) * val k (z - 3) * g3)%Q ->
  (val k z + val k (z - 3) <= 2 * val k (z - 1))%Q.
Proof.
  intros H. destruct (checks_at z) as [_ [_ C]]. unfold chk_iis_b in C.
  pose proof (val_homog z (-3)) as E3. pose proof (val_homog z (-1)) as E1.
  pose proof (val_homog z 0) as E0. rewrite !Z.add_0_r in E0.
  rewrite <- !Z.sub_opp_r in E3, E1. cbn [Z.opp] in E3, E1.
  set (P := pow10 (z / Nz k)) in *. assert (HP : (0 < P)%Q) by apply pow10_pos.
  set (i := z mod Nz k) in *.
  rewrite E3, E1 in H.
  assert (H' : (val k (i - 1) * val k (i - 1) < val k (i - 3) * val k (i - 3) * g3)%Q).
  { assert (HP2 : (0 < P * P)%Q) by nra. nra. }
  apply Qlt_bool_iff in H'. apply (negb_andb_imp _ _ C), Qlt_bool_false in H'.
  rewrite E3, E1, E0. nra.
Qed.

End Spacing.

(** ** The window of [find_nearest_few] *)

Lemma div_le_iff (a b c : Q) : (0 < c)%Q -> (a / c <= b <-> a <= b * c)%Q.
Proof.
  intros Hc. assert (E : (a / c * c == a)%Q) by (field; intros C; rewrite C in Hc; discriminate).
  split; intros H; nra.
Qed.

Lemma Qabs_above (x v : Q) : (v <= x)%Q -> (Qabs (x - v) == x - v)%Q.
Proof. intros H. apply Qabs_pos. lra. Qed.

Lemma Qabs_below (x v : Q) : (x <= v)%Q -> (Qabs (x - v) == v - x)%Q.
Proof. intros H. rewrite Qabs_neg by lra. ring. Qed.

Lemma nearest_length (c : list Q) (v : Q) (n : Z) :
  length (_nearest_n c v n) = Nat.min (Z.to_nat n) (length c).
Proof.
  unfold _nearest_n, enumerate.
  rewrite (Permutation_length (sorted_by_perm _ _)), length_map, length_firstn, length_map.
  rewrite (Permutation_length (sorted_by_perm _ _)), length_combine, length_seq, Nat.min_id, length_map.
  reflexivity.
Qed.

Lemma nearest_sorted (c : list Q) (v : Q) (n : Z) : StronglySorted Qle (_nearest_n c v n).
Proof. unfold _nearest_n. apply (sorted_by_sorted (fun x => x)). Qed.

Lemma find_first_some (p : Q -> bool) (l : list Q) (c : Q) :
  In c l -> p c = true -> exists d, find_first p l = Ok d /\ p d = true.
Proof.
  intros Hin Hp. unfold find_first. destruct (find p l) as [d|] eqn:E.
  - apply find_some in E as [_ E]. exists d. split; [reflexivity | exact E].
  - pose proof (find_none p l E c Hin). congruence.
Qed.

(** ** Standard values one decade apart *)

Lemma standard_10 (k : ESeries) (q : Q) :
  (exists w, val k w == 10 * q)%Q <-> (exists w, val k w == q)%Q.
Proof.
  split; intros [w Hw].
  - exists (w - Nz k). pose proof (val_shift k (w - Nz k) 1) as E.
    replace (w - Nz k + 1 * Nz k) with w in E by lia. change (pow10 1) with (10 # 1) in E. lra.
  - exists (w + 1 * Nz k). rewrite val_shift. change (pow10 1) with (10 # 1). lra.
Qed.

Lemma standard_lo (k : ESeries) (q : Q) : (0 < q)%Q ->
  (exists w, val k w == q)%Q <->
  (val k (lo_pos k (q * q)) * val k (lo_pos k (q * q)) == q * q)%Q.
Proof.
  intros Hq. assert (Hqq : (0 < q * q)%Q) by nra.
  pose proof (lo_pos_spec k (q * q) Hqq) as L. split.
  - intros [w Hw].
    assert (A : lo_pos k (q * q) <= w) by (apply L; rewrite Hw; lra).
    assert (B : ~ (lo_pos k (q * q) <= w - 1)).
    { rewrite L. pose proof (val_lt k (w - 1) w ltac:(lia)). pose proof (val_pos k (w - 1)).
      intros C. assert (val k w * val k w <= val k (w - 1) * val k (w - 1))%Q by (rewrite Hw; exact C).
      nra. }
    replace (lo_pos k (q * q)) with w by lia. rewrite Hw. reflexivity.
  - intros E. exists (lo_pos k (q * q)). apply pos_sq_eq; [apply val_pos | exact Hq | exact E].
Qed.

Section Nearest.

Variable k : ESeries.

(** [value / pow(scale, 1.5)] passes the range check of [erange]. *)
Definition window_ok (v : Q) : Prop := (0 < v)%Q /\ (MIN_sq <= v * v / g3 k)%Q.

Definition wlo (v : Q) : Z := lo_pos k (v * v / g3 k).
Definition whi (v : Q) : Z := hi_pos k (v * v * g3 k).

Lemma find_nearest_few_ok (v : Q) (num : Z) : window_ok v ->
  existsb (Z.eqb num) [1; 2; 3] = true ->
  find_nearest_few k v num = Ok (_nearest_n (map (vq k) (zrange (wlo v) (whi v))) v num).
Proof.
  intros [Hv Hm] Hn. pose proof (g3_ge1 k) as Hg.
  unfold find_nearest_few. rewrite Hn. cbn [negb]. rewrite of_Q_pos by exact Hv.
  unfold pf_div, pf_mul, pow_1_5. cbn [xorb].
  change (GEOMETRIC_SCALE_E k * GEOMETRIC_SCALE_E k * GEOMETRIC_SCALE_E k)%Q with (g3 k).
  rewrite erange_spec; [reflexivity | exact Hm|].
  apply div_le_iff; [lra|].
  assert (0 < v * v)%Q by nra. assert (1 <= g3 k * g3 k)%Q by nra.
  setoid_replace (v * v * g3 k * g3 k)%Q with (v * v * (g3 k * g3 k))%Q by ring. nra.
Qed.

Lemma in_window (v : Q) (w : Z) : window_ok v ->
  wlo v <= w < whi v <->
  (v * v <= val k w * val k w * g3 k /\ val k w * val k w <= v * v * g3 k)%Q.
Proof.
  intros [Hv Hm]. pose proof (g3_ge1 k) as Hg. unfold wlo, whi.
  assert (Hvv : (0 < v * v)%Q) by nra.
  rewrite (lo_pos_spec k (v * v / g3 k) ltac:(pose proof MIN_sq_pos; lra)).
  rewrite (hi_pos_spec k (v * v * g3 k) ltac:(nra)). rewrite div_le_iff by lra. tauto.
Qed.

(** The position of the largest standard value at or below [v]. *)
Definition zpos (v : Q) : Z := hi_pos k (v * v) - 1.

Lemma zpos_spec (v : Q) : (0 < v)%Q ->
  (val k (zpos v) <= v < val k (zpos v + 1))%Q.
Proof.
  intros Hv. unfold zpos. pose proof (hi_pos_spec k (v * v) ltac:(nra)) as H.
  pose proof (val_pos k (hi_pos k (v * v) - 1)). pose proof (val_pos k (hi_pos k (v * v) - 1 + 1)).
  split.
  - apply pos_sq_le; [assumption | assumption |]. apply H. lia.
  - apply Qnot_le_lt. intros C. assert (C2 : (val k (hi_pos k (v * v) - 1 + 1) * val k (hi_pos k (v * v) - 1 + 1) <= v * v)%Q) by nra.
    apply H in C2. lia.
Qed.

(** The three nearest values of [find_nearest_few] at a value in range. *)
Definition near (v : Q) (n : Z) : list Q := _nearest_n (map (vq k) (zrange (wlo v) (whi v))) v n.

(** [v] is itself a standard value. *)
Definition is_standard (v : Q) : bool := Qeq_bool (val k (zpos v)) v.

Lemma sq_le (a b : Q) : (0 <= a)%Q -> (a <= b)%Q -> (a * a <= b * b)%Q.
Proof. intros Ha Hb. nra. Qed.

Lemma le_mul_g3 (x : Q) : (0 <= x)%Q -> (x <= x * g3 k)%Q.
Proof. intros H. pose proof (g3_ge1 k). nra. Qed.

Lemma not_lexq_below (v : Q) (w z : Z) : w <= z -> (val k z <= v)%Q -> ~ lexq k v w z.
Proof.
  intros Hwz Hz. pose proof (val_le k w z Hwz) as Hle. unfold lexq.
  rewrite (Qabs_below (val k w)) by lra. rewrite (Qabs_below (val k z)) by lra.
  intros [H|[H1 H2]]; [lra|]. pose proof (val_lt k w z H2). lra.
Qed.

Lemma not_lexq_above (v : Q) (w z : Z) : z <= w -> (v <= val k z)%Q -> ~ lexq k v w z.
Proof.
  intros Hwz Hz. pose proof (val_le k z w Hwz) as Hle. unfold lexq.
  rewrite (Qabs_above (val k w)) by lra. rewrite (Qabs_above (val k z)) by lra.
  intros [H|[H1 H2]]; [lra | lia].
Qed.

Lemma not_lexq_far (v : Q) (w z : Z) :
  (Qabs (val k z - v) < Qabs (val k w - v))%Q -> ~ lexq k v w z.
Proof. intros H. unfold lexq. intros [H1|[H1 _]]; lra. Qed.

Lemma not_lexq_far_up (v : Q) (w z : Z) : z < w ->
  (Qabs (val k z - v) <= Qabs (val k w - v))%Q -> ~ lexq k v w z.
Proof. intros Hzw H. unfold lexq. intros [H1|[_ H1]]; [lra | lia]. Qed.

Lemma zpos_in (v : Q) : window_ok v -> wlo v <= zpos v < whi v.
Proof.
  intros W. pose proof W as [Hv _]. destruct (zpos_spec v Hv) as [H1 H2].
  pose proof (g_ge1 k) as Hg. pose proof (g_le_g3 k) as Hg3. pose proof (g3_ge1 k).
  set (z := zpos v) in *. apply (in_window v z W).
  pose proof (val_pos k z) as Hz. pose proof (gap k z) as Gp. fold (g k) in Gp.
  assert (A : (v * v <= g k * val k z * (g k * val k z))%Q).
  { apply sq_le; lra. }
  assert (B : (g k * val k z * (g k * val k z) == (g k * g k) * (val k z * val k z))%Q) by ring.
  assert (C : (g k * g k * (val k z * val k z) <= g3 k * (val k z * val k z))%Q).
  { apply Qmult_le_compat_r; [exact Hg3 | nra]. }
  split; [nra|]. assert (val k z * val k z <= v * v)%Q by (apply sq_le; lra). nra.
Qed.

Lemma succ_in (v : Q) : window_ok v -> wlo v <= zpos v + 1 < whi v.
Proof.
  intros W. pose proof W as [Hv _]. destruct (zpos_spec v Hv) as [H1 H2].
  pose proof (g_ge1 k) as Hg. pose proof (g_le_g3 k) as Hg3. pose proof (g3_ge1 k).
  set (z := zpos v) in *. apply (in_window v (z + 1) W).
  pose proof (val_pos k z) as Hz. pose proof (gap k z) as Gp. fold (g k) in Gp.
  assert (A : (val k (z + 1) * val k (z + 1) <= g k * v * (g k * v))%Q).
  { apply sq_le; [pose proof (val_pos k (z + 1)); lra | nra]. }
  assert (C : (g k * g k * (v * v) <= g3 k * (v * v))%Q).
  { apply Qmult_le_compat_r; [exact Hg3 | nra]. }
  assert (D : (v * v <= val k (z + 1) * val k (z + 1))%Q) by (apply sq_le; lra).
  split; [nra|]. nra.
Qed.

(** [v]'s lower neighbour [zpos v] is among the three nearest. *)
Lemma mem_zpos (v : Q) : window_ok v -> In (vq k (zpos v)) (near v 3).
Proof.
  intros W. pose proof W as [Hv _]. destruct (zpos_spec v Hv) as [Hz1 Hz2].
  pose proof (g3_ge1 k) as Hg. pose proof (zpos_in v W) as Hin.
  set (z := zpos v) in *.
  apply (nearest_in k v _ _ z 3 [z + 1; z + 2]); [exact Hin | | simpl; lia].
  intros w Hw Hl. apply (in_window v w W) in Hw as [_ Hw].
  destruct (Z_le_gt_dec w z) as [C|C]; [exfalso; exact (not_lexq_below v w z C Hz1 Hl)|].
  destruct (Z.eq_dec w (z + 1)) as [->|C1]; [left; reflexivity|].
  destruct (Z.eq_dec w (z + 2)) as [->|C2]; [right; left; reflexivity|].
  exfalso. apply (not_lexq_far v w z); [|exact Hl].
  pose proof (val_pos k z). pose proof (val_pos k (z + 1)). pose proof (val_pos k (z + 3)).
  pose proof (val_le k (z + 3) w ltac:(lia)) as L3.
  pose proof (val_lt k (z + 1) (z + 3) ltac:(lia)) as L13.
  assert (P : (val k (z + 3) * val k (z + 3) <= val k (z + 1) * val k (z + 1) * g3 k)%Q).
  { assert (A : (val k (z + 3) * val k (z + 3) <= val k w * val k w)%Q) by (apply sq_le; lra).
    assert (B : (v * v * g3 k <= val k (z + 1) * val k (z + 1) * g3 k)%Q).
    { apply Qmult_le_compat_r; [apply sq_le; lra | lra]. }
    lra. }
  apply (spread_i k z) in P.
  rewrite (Qabs_below (val k z)) by lra. rewrite (Qabs_above (val k w)) by lra. lra.
Qed.

(** At a standard value, the standard value just below it is among the
    three nearest. *)
Lemma mem_pred (v : Q) : window_ok v -> (val k (zpos v) == v)%Q ->
  In (vq k (zpos v - 1)) (near v 3).
Proof.
  intros W Heq. pose proof W as [Hv _].
  pose proof (g_ge1 k) as Hg1. pose proof (g_le_g3 k) as Hg3. pose proof (g3_ge1 k) as Hg.
  set (z := zpos v) in *.
  pose proof (val_pos k z). pose proof (val_pos k (z - 1)).
  pose proof (val_lt k (z - 1) z ltac:(lia)) as L.
  assert (Hin : wlo v <= z - 1 < whi v).
  { apply (in_window v (z - 1) W). pose proof (gap k (z - 1)) as Gp. fold (g k) in Gp.
    replace (z - 1 + 1) with z in Gp by lia.
    assert (A : (v * v <= g k * val k (z - 1) * (g k * val k (z - 1)))%Q).
    { apply sq_le; lra. }
    assert (C : (g k * g k * (val k (z - 1) * val k (z - 1)) <= g3 k * (val k (z - 1) * val k (z - 1)))%Q).
    { apply Qmult_le_compat_r; [exact Hg3 | nra]. }
    assert (D : (val k (z - 1) * val k (z - 1) <= v * v)%Q) by (apply sq_le; lra).
    split; nra. }
  apply (nearest_in k v _ _ (z - 1) 3 [z; z + 1]); [exact Hin | | simpl; lia].
  intros w Hw Hl. apply (in_window v w W) in Hw as [_ Hw].
  destruct (Z_le_gt_dec w (z - 1)) as [C|C].
  { exfalso. exact (not_lexq_below v w (z - 1) C ltac:(lra) Hl). }
  destruct (Z.eq_dec w z) as [->|C1]; [left; reflexivity|].
  destruct (Z.eq_dec w (z + 1)) as [->|C2]; [right; left; reflexivity|].
  exfalso. apply (not_lexq_far_up v w (z - 1)); [lia | | exact Hl].
  pose proof (val_pos k (z + 2)).
  pose proof (val_le k (z + 2) w ltac:(lia)) as L2.
  pose proof (val_lt k z (z + 2) ltac:(lia)) as L02.
  assert (P : (val k (z - 1 + 3) * val k (z - 1 + 3) <= val k (z - 1 + 1) * val k (z - 1 + 1) * g3 k)%Q).
  { replace (z - 1 + 3) with (z + 2) by lia. replace (z - 1 + 1) with z by lia.
    assert (A : (val k (z + 2) * val k (z + 2) <= val k w * val k w)%Q) by (apply sq_le; lra).
    assert (B : (v * v * g3 k == val k z * val k z * g3 k)%Q) by (rewrite Heq; reflexivity).
    lra. }
  apply (spread_i k (z - 1)) in P.
  replace (z - 1 + 3) with (z + 2) in P by lia. replace (z - 1 + 1) with z in P by lia.
  rewrite (Qabs_below (val k (z - 1))) by lra. rewrite (Qabs_above (val k w)) by lra. lra.
Qed.

(** Off the standard values, the standard value just above [v] is among the
    three nearest. *)
Lemma mem_succ (v : Q) : window_ok v -> (val k (zpos v) < v)%Q ->
  In (vq k (zpos v + 1)) (near v 3).
Proof.
  intros W Hlt. pose proof W as [Hv _]. destruct (zpos_spec v Hv) as [_ Hz2].
  pose proof (g3_ge1 k) as Hg. pose proof (succ_in v W) as Hin.
  set (z := zpos v) in *.
  apply (nearest_in k v _ _ (z + 1) 3 [z - 1; z]); [exact Hin | | simpl; lia].
  intros w Hw Hl. apply (in_window v w W) in Hw as [Hw _].
  destruct (Z_le_gt_dec (z + 1) w) as [C|C].
  { exfalso. exact (not_lexq_above v w (z + 1) C ltac:(lra) Hl). }
  destruct (Z.eq_dec w z) as [->|C1]; [right; left; reflexivity|].
  destruct (Z.eq_dec w (z - 1)) as [->|C2]; [left; reflexivity|].
  exfalso. apply (not_lexq_far v w (z + 1)); [|exact Hl].
  pose proof (val_pos k z). pose proof (val_pos k w). pose proof (val_pos k (z - 2)).
  pose proof (val_le k w (z - 2) ltac:(lia)) as L2.
  pose proof (val_lt k (z - 2) z ltac:(lia)) as L02.
  assert (P : (val k (z + 1 - 1) * val k (z + 1 - 1) < val k (z + 1 - 3) * val k (z + 1 - 3) * g3 k)%Q).
  { replace (z + 1 - 1) with z by lia. replace (z + 1 - 3) with (z - 2) by lia.
    assert (A : (val k z * val k z < v * v)%Q) by nra.
    assert (B : (val k w * val k w * g3 k <= val k (z - 2) * val k (z - 2) * g3 k)%Q).
    { apply Qmult_le_compat_r; [apply sq_le; lra | lra]. }
    lra. }
  apply (spread_iis k (z + 1)) in P.
  replace (z + 1 - 1) with z in P by lia. replace (z + 1 - 3) with (z - 2) in P by lia.
  rewrite (Qabs_above (val k (z + 1))) by lra. rewrite (Qabs_below (val k w)) by lra. lra.
Qed.

(** The window holds at least three standard values. *)
Lemma window_three (v : Q) : window_ok v -> 3 <= whi v - wlo v.
Proof.
  intros W. pose proof W as [Hv _].
  pose proof (zpos_in v W). pose proof (succ_in v W).
  set (z := zpos v) in *.
  destruct (Z_le_gt_dec (wlo v) (z - 1)) as [C|C]; [lia|].
  destruct (Z_le_gt_dec (whi v) (z + 2)) as [D|D]; [|lia].
  exfalso.
  assert (C' : ~ (wlo v <= z - 1 < whi v)) by lia.
  assert (D' : ~ (wlo v <= z + 2 < whi v)) by lia.
  rewrite (in_window v) in C', D' by exact W.
  pose proof (g_ge1 k) as Hg1. pose proof (g3_ge1 k) as Hg.
  pose proof (val_pos k (z - 1)). pose proof (val_pos k z). pose proof (val_pos k (z + 1)).
  pose proof (val_pos k (z + 2)).
  pose proof (gap k (z - 1)) as G1. pose proof (gap k z) as G2. pose proof (gap k (z + 1)) as G3.
  replace (z - 1 + 1) with z in G1 by lia. replace (z + 1 + 1) with (z + 2) in G3 by lia.
  fold (g k) in G1, G2, G3.
  assert (U : (val k (z + 2) <= g3 k * val k (z - 1))%Q).
  { unfold g3. assert (0 <= g k)%Q by lra. nra. }
  pose proof (val_lt k (z - 1) (z + 2) ltac:(lia)).
  destruct (zpos_spec v Hv) as [Z1 Z2]. fold z in Z1, Z2.
  assert (Lo : (val k (z - 1) * val k (z - 1) * g3 k < v * v)%Q).
  { apply Qnot_le_lt. intros E. apply C'. split; [exact E|].
    pose proof (val_lt k (z - 1) z ltac:(lia)).
    assert (val k (z - 1) * val k (z - 1) <= v * v)%Q by (apply sq_le; lra).
    pose proof (le_mul_g3 (v * v) ltac:(nra)). lra. }
  assert (Hi : (v * v * g3 k < val k (z + 2) * val k (z + 2))%Q).
  { apply Qnot_le_lt. intros E. apply D'. split; [|exact E].
    pose proof (val_lt k (z + 1) (z + 2) ltac:(lia)).
    assert (v * v <= val k (z + 2) * val k (z + 2))%Q by (apply sq_le; lra).
    pose proof (le_mul_g3 (val k (z + 2) * val k (z + 2)) ltac:(nra)). lra. }
  assert (U2 : (val k (z + 2) * val k (z + 2) <= g3 k * val k (z - 1) * (g3 k * val k (z - 1)))%Q).
  { apply sq_le; lra. }
  assert (X : (val k (z - 1) * val k (z - 1) * g3 k * g3 k < v * v * g3 k)%Q).
  { apply Qmult_lt_compat_r; [lra | exact Lo]. }
  nra.
Qed.

Lemma zpos_unique (v : Q) (z : Z) : (val k z <= v < val k (z + 1))%Q -> zpos v = z.
Proof.
  intros [H1 H2]. assert (Hv : (0 < v)%Q) by (pose proof (val_pos k z); lra).
  destruct (zpos_spec v Hv) as [Z1 Z2].
  assert (A : z < zpos v + 1) by (apply (val_lt_inv k); lra).
  assert (B : zpos v < z + 1) by (apply (val_lt_inv k); lra). lia.
Qed.

Lemma is_standard_spec (v : Q) : (0 < v)%Q ->
  is_standard v = true <-> exists w, (val k w == v)%Q.
Proof.
  intros Hv. unfold is_standard. rewrite Qeq_bool_iff. split.
  - intros E. exists (zpos v). exact E.
  - intros [w Hw]. destruct (zpos_spec v Hv) as [Z1 Z2].
    assert (A : w < zpos v + 1) by (apply (val_lt_inv k); lra).
    assert (B : zpos v <= w) by (apply (val_le_inv k); lra).
    assert (E : zpos v = w) by lia. rewrite E. exact Hw.
Qed.

Lemma near_length (v : Q) (n : Z) : window_ok v -> 0 <= n <= 3 ->
  length (near v n) = Z.to_nat n.
Proof.
  intros W Hn. unfold near. rewrite nearest_length, length_map, length_zrange.
  pose proof (window_three v W). lia.
Qed.

(** At the midpoint of two neighbouring standard values the lower one is
    the single nearest. *)
Lemma near_midpoint (v : Q) (z : Z) : window_ok v ->
  (val k z < v < val k (z + 1))%Q -> (v - val k z == val k (z + 1) - v)%Q ->
  near v 1 = [vq k z].
Proof.
  intros W [H1 H2] Hm.
  assert (Ez : zpos v = z) by (apply zpos_unique; lra).
  assert (Hin : In (vq k z) (near v 1)).
  { change 1 with (Z.of_nat 1). apply (nearest_in k v _ _ z 1 []); [rewrite <- Ez; apply zpos_in, W | | simpl; lia].
    intros w _ Hl. exfalso.
    destruct (Z_le_gt_dec w z) as [C|C]; [exact (not_lexq_below v w z C ltac:(lra) Hl)|].
    pose proof (val_le k (z + 1) w ltac:(lia)) as L.
    destruct (Z.eq_dec w (z + 1)) as [->|C1].
    - apply (not_lexq_far_up v (z + 1) z); [lia | | exact Hl].
      rewrite (Qabs_below (val k z)) by lra. rewrite (Qabs_above (val k (z + 1))) by lra. lra.
    - apply (not_lexq_far v w z); [|exact Hl].
      pose proof (val_lt k (z + 1) w ltac:(lia)).
      rewrite (Qabs_below (val k z)) by lra. rewrite (Qabs_above (val k w)) by lra. lra. }
  pose proof (near_length v 1 W ltac:(lia)) as Hl.
  destruct (near v 1) as [|c [|c' t]]; [destruct Hin | | discriminate Hl].
  destruct Hin as [<-|[]]. reflexivity.
Qed.

End Nearest.

(** ** Helpers for the properties below *)

Lemma vq_val (k : ESeries) (w : Z) : (vq k w == val k w)%Q.
Proof. unfold vq. apply Qred_correct. Qed.

Lemma vq_inj (k : ESeries) (w w' : Z) : vq k w = vq k w' -> w = w'.
Proof.
  intros E. assert (E' : (val k w == val k w')%Q).
  { rewrite <- (vq_val k w), <- (vq_val k w'), E. reflexivity. }
  apply Z.le_antisymm; apply (val_le_inv k); lra.
Qed.

Lemma in_map_vq (k : ESeries) (a b w : Z) :
  In (vq k w) (map (vq k) (zrange a b)) <-> a <= w < b.
Proof.
  rewrite in_map_iff. split.
  - intros [w' [E Hw']]. apply vq_inj in E. subst w'. apply in_zrange, Hw'.
  - intros H. exists w. split; [reflexivity | apply in_zrange, H].
Qed.

Lemma existsb_num (num : Z) : existsb (Z.eqb num) [1; 2; 3] = true <-> In num [1; 2; 3].
Proof.
  rewrite existsb_exists. split.
  - intros [x [Hx E]]. apply Z.eqb_eq in E. subst x. exact Hx.
  - intros H. exists num. split; [exact H | apply Z.eqb_refl].
Qed.

(** A result that is exactly [Ok q]. *)
Definition res_eqb (r : result Q) (q : Q) : bool :=
  match r with
  | Ok c => Z.eqb (Qnum c) (Qnum q) && Pos.eqb (Qden c) (Qden q)
  | Raise _ => false
  end.

Lemma res_eqb_spec (r : result Q) (q : Q) : res_eqb r q = true -> r = Ok q.
Proof.
  destruct r as [[n d]|e]; [|discriminate]. destruct q as [n' d']. cbn.
  intros H. apply andb_true_iff in H as [H1 H2].
  apply Z.eqb_eq in H1. apply Pos.eqb_eq in H2. subst. reflexivity.
Qed.

(** The three searches at every entry of a table. *)
Definition table_check (k : ESeries) : bool :=
  forallb (fun x =>
    res_eqb (find_nearest k (inject_Z x)) (inject_Z x) &&
    res_eqb (find_less_than_or_equal k (inject_Z x)) (inject_Z x) &&
    res_eqb (find_greater_than_or_equal k (inject_Z x)) (inject_Z x)) (series k).

Lemma table_check_ok (k : ESeries) : table_check k = true.
Proof. destruct k; vm_compute; reflexivity. Qed.

Lemma of_Q_window (k : ESeries) (s t : Q) : (1 # 10 ^ 200 <= s)%Q -> (s <= t)%Q ->
  erange k (of_Q s) (of_Q t) = Ok (map (vq k) (zrange (lo_pos k (s * s)) (hi_pos k (t * t)))).
Proof.
  intros Hs Hst. assert (H0 : (0 < 1 # 10 ^ 200)%Q) by reflexivity.
  rewrite !of_Q_pos by lra. apply erange_spec; [apply MIN_sq_of, Hs | nra].
Qed.

(** * The properties *)

(** C1: [erange(E12, 21, 147)] yields 22, 27, 33, 39, 47, 56, 68, 82, 100
    and 120, in that order: 147 is not an E12 value (the E12 values after
    120 are 150 and 180), so the enumeration stops at 120. *)
Theorem erange_E12_21_147 :
  erange E12 (of_Q 21) (of_Q 147) = Ok [22; 27; 33; 39; 47; 56; 68; 82; 100; 120]%Q.
Proof. vm_compute. reflexivity. Qed.

(** C1 (counterexample): the sequence of the claim, which ends in 147, is not
    what [erange(E12, 21, 147)] yields. *)
Theorem erange_E12_21_147_no_147 :
  erange E12 (of_Q 21) (of_Q 147) <> Ok [22; 27; 33; 39; 47; 56; 68; 82; 100; 120; 147]%Q.
Proof. vm_compute. intros H. discriminate H. Qed.

(** C3 (a failing input): at the E192 value 102, which lies well inside the
    range, [find_greater_than] ends in its [assert False]: the three nearest
    values are 100, 101 and 102 (104 ties with 100 at distance 2 and comes
    later), none of them above 102. *)
Theorem find_greater_than_E192_102_asserts :
  window_ok E192 102 /\ find_greater_than E192 102 = Raise AssertionError.
Proof. split; [split; [reflexivity | vm_compute; intros H; discriminate H] | vm_compute; reflexivity]. Qed.

(** C4: for every series and every entry [x] of its table,
    [find_nearest], [find_less_than_or_equal] and
    [find_greater_than_or_equal] at [x] each return exactly [x]. *)
Theorem find_table_values (k : ESeries) (x : Z) : In x (series k) ->
  find_nearest k (inject_Z x) = Ok (inject_Z x) /\
  find_less_than_or_equal k (inject_Z x) = Ok (inject_Z x) /\
  find_greater_than_or_equal k (inject_Z x) = Ok (inject_Z x).
Proof.
  intros Hx. pose proof (table_check_ok k) as H. unfold table_check in H.
  rewrite forallb_forall in H. specialize (H x Hx).
  apply andb_true_iff in H as [H H3]. apply andb_true_iff in H as [H1 H2].
  split; [|split]; apply res_eqb_spec; assumption.
Qed.

Lemma find_table_values_witness :
  In 22 (series E3) /\
  find_nearest E3 (inject_Z 22) = Ok (inject_Z 22) /\
  find_less_than_or_equal E3 (inject_Z 22) = Ok (inject_Z 22) /\
  find_greater_than_or_equal E3 (inject_Z 22) = Ok (inject_Z 22).
Proof. split; [simpl; tauto | apply find_table_values; simpl; tauto]. Defined.

(** C5 (a failing input): at the E24 value 13, inside the range, the three
    nearest values are 11, 12 and 13: 15 ties with 11 at distance 2 and the
    stable sort keeps 11, so no returned value is above 13. *)
Theorem find_nearest_few_E24_13 :
  window_ok E24 13 /\ find_nearest_few E24 13 3 = Ok [11; 12; 13]%Q.
Proof. split; [split; [reflexivity | vm_compute; intros H; discriminate H] | vm_compute; reflexivity]. Qed.



(** C9 (a failing input): at the E24 value 13, inside the range,
    [find_greater_than] finds no candidate above 13 among the three nearest
    and reaches its [assert False]. *)
Theorem find_greater_than_E24_13_asserts :
  window_ok E24 13 /\ find_greater_than E24 13 = Raise AssertionError.
Proof. split; [split; [reflexivity | vm_compute; intros H; discriminate H] | vm_compute; reflexivity]. Qed.

(** ** Further properties *)



Lemma sorted_nth (a : list Q) (i j : nat) :
  Sorted Qle a -> (i <= j < length a)%nat -> (nth i a 0 <= nth j a 0)%Q.
Proof.
  intros Hs. apply Sorted_StronglySorted in Hs; [|intros x y z; apply Qle_trans].
  revert i j. induction a as [|h t IH]; intros i j Hij; [simpl in Hij; lia|].
  apply StronglySorted_inv in Hs as [Ht Hh]. rewrite Forall_forall in Hh.
  destruct i as [|i], j as [|j]; simpl in *.
  - lra.
  - apply Hh, nth_In. lia.
  - lia.
  - apply IH; [exact Ht | lia].
Qed.

(** The binary search ends at the boundary between the elements below [x]
    and the others. *)
Lemma bisect_left_loop_spec (a : list Q) (x : Q) (fuel lo hi : nat) :
  Sorted Qle a -> (lo <= hi <= length a)%nat -> (hi - lo <= fuel)%nat ->
  let r := bisect_left_loop a x lo hi fuel in
  (lo <= r <= hi)%nat /\
  (forall i, (lo <= i < r)%nat -> (nth i a 0 < x)%Q) /\
  (forall i, (r <= i < hi)%nat -> (x <= nth i a 0)%Q).
Proof.
  intros Hs. revert lo hi. induction fuel as [|f IH]; intros lo hi Hb Hf; cbn zeta; cbn [bisect_left_loop].
  - split; [lia|]. split; intros i Hi; lia.
  - destruct (Nat.ltb_spec lo hi) as [Hlt|Hge]; [|split; [lia|]; split; intros i Hi; lia].
    set (mid := ((lo + hi) / 2)%nat).
    assert (Hm : (lo <= mid < hi)%nat).
    { unfold mid. split; [apply Nat.div_le_lower_bound|apply Nat.Div0.div_lt_upper_bound]; lia. }
    destruct (Qlt_bool (nth mid a 0%Q) x) eqn:E.
    + apply Qlt_bool_iff in E.
      destruct (IH (S mid) hi ltac:(lia) ltac:(lia)) as [R1 [R2 R3]].
      split; [lia|]. split; [|exact R3].
      intros i Hi. destruct (Nat.le_gt_cases i mid) as [C|C]; [|apply R2; lia].
      pose proof (sorted_nth a i mid Hs ltac:(lia)). lra.
    + apply Qlt_bool_false in E.
      destruct (IH lo mid ltac:(lia) ltac:(lia)) as [R1 [R2 R3]].
      split; [lia|]. split; [exact R2|].
      intros i Hi. destruct (Nat.lt_ge_cases i mid) as [C|C]; [apply R3; lia|].
      pose proof (sorted_nth a mid i Hs ltac:(lia)). lra.
Qed.

Lemma py_bisect_left_spec (a : list Q) (x : Q) : Sorted Qle a ->
  (py_bisect_left a x <= length a)%nat /\
  (forall i, (i < py_bisect_left a x)%nat -> (nth i a 0 < x)%Q) /\
  (forall i, (py_bisect_left a x <= i < length a)%nat -> (x <= nth i a 0)%Q).
Proof.
  intros Hs. destruct (bisect_left_loop_spec a x (length a) 0 (length a) Hs ltac:(lia) ltac:(lia))
    as [R1 [R2 R3]].
  unfold py_bisect_left. split; [lia|]. split; [|exact R3].
  intros i Hi. apply R2. lia.
Qed.

(** On a sorted list, [find_ge] returns the least element at or above [x],
    and raises [ValueError] when every element is below [x]. *)
Theorem find_ge_spec (a : list Q) (x : Q) : Sorted Qle a ->
  ((forall y, In y a -> (y < x)%Q) -> find_ge a x = Raise (ValueError [])) /\
  ((exists y, In y a /\ (x <= y)%Q) ->
   exists c, find_ge a x = Ok c /\ In c a /\ (x <= c)%Q /\
     forall y, In y a -> (x <= y)%Q -> (c <= y)%Q).
Proof.
  intros Hs. destruct (py_bisect_left_spec a x Hs) as [R1 [R2 R3]].
  unfold find_ge. split.
  - intros Hall. destruct (Nat.eqb_spec (py_bisect_left a x) (length a)) as [E|E]; [reflexivity|].
    exfalso. assert (L : (py_bisect_left a x < length a)%nat) by lia.
    specialize (R3 _ (conj (Nat.le_refl _) L)).
    specialize (Hall _ (nth_In a 0%Q L)). lra.
  - intros [y [Hy Hxy]].
    apply In_nth with (d := 0%Q) in Hy as [j [Hj Ej]]. subst y.
    destruct (Nat.eqb_spec (py_bisect_left a x) (length a)) as [E|E].
    { specialize (R2 j ltac:(lia)). lra. }
    assert (L : (py_bisect_left a x < length a)%nat) by lia.
    eexists. split; [reflexivity|]. split; [apply nth_In, L|]. split; [apply R3; lia|].
    intros y Hy Hxy'. apply In_nth with (d := 0%Q) in Hy as [j' [Hj' <-]].
    destruct (Nat.lt_ge_cases j' (py_bisect_left a x)) as [C|C].
    + specialize (R2 j' C). lra.
    + apply sorted_nth; [exact Hs | lia].
Qed.

Lemma ESeries_value_inj (k1 k2 : ESeries) : ESeries_value k1 = ESeries_value k2 -> k1 = k2.
Proof. destruct k1, k2; cbn; intros H; congruence. Qed.

Lemma lookup_key_some (z : Z) (k : ESeries) : lookup_key z = Some k <-> ESeries_value k = z.
Proof.
  split.
  - intros E. apply find_some in E as [_ E]. apply Z.eqb_eq, E.
  - intros <-. destruct (lookup_key (ESeries_value k)) as [k'|] eqn:E.
    + apply find_some in E as [_ E]. apply Z.eqb_eq, ESeries_value_inj in E. congruence.
    + exfalso. refine (Bool.diff_true_false (eq_trans (eq_sym (Z.eqb_refl (ESeries_value k))) _)).
      apply (find_none _ _ E). destruct k; cbn; tauto.
Qed.

Lemma lookup_key_none (z : Z) : lookup_key z = None <-> forall k, ESeries_value k <> z.
Proof.
  split.
  - intros E k Hk. apply lookup_key_some in Hk. congruence.
  - intros H. destruct (lookup_key z) as [k|] eqn:E; [|reflexivity].
    apply lookup_key_some in E. destruct (H k E).
Qed.

Lemma series_length (k : ESeries) : Z.of_nat (length (series k)) = ESeries_value k.
Proof. destruct k; reflexivity. Qed.

(** [series] and [tolerance] accept the same integer keys, the seven values
    of the enumeration; [series] then returns a table with as many entries as
    the key says, and any other key raises the same [ValueError], which
    lists the available keys. *)
Theorem series_tolerance_keys (z : Z) :
  (forall l, series_of_key z = Ok l <-> exists k, ESeries_value k = z /\ l = series k) /\
  (forall l, series_of_key z = Ok l -> Z.of_nat (length l) = z) /\
  ((exists t, tolerance z = Ok t) <-> (exists l, series_of_key z = Ok l)) /\
  ((forall k, ESeries_value k <> z) ->
   let e := ValueError [Txt "E-series "; IntVal z; Txt " not found. Available E-series keys are ";
                        Txt "E3, E6, E12, E24, E48, E96, E192"] in
   series_of_key z = Raise e /\ tolerance z = Raise e).
Proof.
  unfold series_of_key, tolerance. destruct (lookup_key z) as [k|] eqn:E.
  - apply lookup_key_some in E. split; [|split; [|split]].
    + intros l. split.
      * intros H. injection H as <-. exists k. split; [exact E | reflexivity].
      * intros [k' [Hk' ->]]. rewrite <- Hk' in E. apply ESeries_value_inj in E. subst k'.
        reflexivity.
    + intros l H. injection H as <-. rewrite <- E. apply series_length.
    + split; intros _; eexists; reflexivity.
    + intros H. destruct (H k E).
  - pose proof (proj1 (lookup_key_none z) E) as E0. clear E. rename E0 into E. split; [|split; [|split]].
    + intros l. split; [intros H; discriminate H|]. intros [k [Hk _]]. destruct (E k Hk).
    + intros l H. discriminate H.
    + split; intros [x H]; discriminate H.
    + intros _. split; reflexivity.
Qed.


Lemma incr_b_sorted (l : list Z) : incr_b l = true -> Sorted Z.lt l.
Proof.
  induction l as [|a [|b t] IH]; intros H; [constructor | repeat constructor |].
  cbn [incr_b] in H. apply andb_true_iff in H as [H1 H2].
  constructor; [apply IH, H2 | constructor; apply Z.ltb_lt, H1].
Qed.

(** Every table of [_E] has as many entries as its key, is strictly
    increasing, starts at the power of ten [10^sdec] (10 for E3 to E24, 100
    for E48 to E192) and stays below the next power of ten. *)
Theorem series_tables (k : ESeries) :
  Z.of_nat (length (series k)) = ESeries_value k /\
  StronglySorted Z.lt (series k) /\
  hd 0 (series k) = 10 ^ sdec k /\
  Forall (fun x => 10 ^ sdec k <= x < 10 ^ (sdec k + 1)) (series k).
Proof.
  destruct (tbl_facts k) as [_ [Hs [H0 _]]].
  split; [apply series_length|].
  split; [apply Sorted_StronglySorted; [exact Z.lt_trans | apply incr_b_sorted, Hs]|].
  split; [rewrite <- H0; unfold tb; destruct (series k); reflexivity|].
  apply Forall_forall. intros x Hx. destruct (In_nth _ _ 0 Hx) as [i [Hi <-]].
  exact (tb_bounds k i Hi).
Qed.

(** Each of E3, E6 and E12 is every other value of the next series, from
    the first, and so are E48 and E96. *)
Theorem series_every_other :
  series E3 = every_other (series E6) /\ series E6 = every_other (series E12) /\
  series E12 = every_other (series E24) /\ series E48 = every_other (series E96) /\
  series E96 = every_other (series E192).
Proof. split; [|split; [|split; [|split]]]; vm_compute; reflexivity. Qed.

Import (notations) PrimFloat.
Set Warnings "-inexact-float".

(** [GEOMETRIC_SCALE_E] as Python computes it in floats: for E3 to E192 it
    is the float quotient 22/10, 15/10, 15/12, 15/13, 178/169, 137/133 and
    104/102 of the adjacent entries [(a, b)] with the largest ratio, that is
    the floats 2.2, 1.5, 1.25, 1.1538461538461537, 1.0532544378698225,
    1.0300751879699248 and 1.0196078431372548. *)
Theorem geometric_scale_float :
  map Float64.GEOMETRIC_SCALE_E series_keys =
  map (fun '(b, a) => Ok (Float64.true_div b a))
    [(22, 10); (15, 10); (15, 12); (15, 13); (178, 169); (137, 133); (104, 102)] /\
  map Float64.GEOMETRIC_SCALE_E series_keys =
  [Ok 2.2; Ok 1.5; Ok 1.25; Ok 1.1538461538461537; Ok 1.0532544378698225;
   Ok 1.0300751879699248; Ok 1.0196078431372548]%float.
Proof. split; vm_compute; reflexivity. Qed.

(** [_try_integral] on a float: on a finite float it returns the integer [z]
    exactly when the float's value is [z], and otherwise raises
    [ValueError('{} does not have integral value.')], whose placeholder is
    never filled in; on an infinity it raises [math.floor]'s
    [OverflowError], on NaN its [ValueError]. *)
Theorem try_integral_float (f : PrimFloat.float) :
  match Float64.to_Q f with
  | Some q =>
    (forall z, Float64._try_integral f = Ok z <-> (q == inject_Z z)%Q) /\
    ((forall z, ~ (q == inject_Z z)%Q) ->
     Float64._try_integral f = Raise (ValueError [Txt "{} does not have integral value."]))
  | None => Float64._try_integral f = Raise (Float64.not_finite_error f)
  end.
Proof.
  unfold Float64._try_integral, Float64.is_integral, Float64.floor, Float64.int.
  destruct (Float64.to_Q f) as [q|]; [|reflexivity]. cbn [bind].
  destruct (Qeq_bool q (inject_Z (Qfloor q))) eqn:E; cbn [negb].
  - apply Qeq_bool_iff in E.
    assert (T : (if Qle_bool 0 q then Qfloor q else - Qfloor (- q)) = Qfloor q).
    { destruct (Qle_bool 0 q); [reflexivity|].
      assert (N : (- q == inject_Z (- Qfloor q))%Q) by (rewrite inject_Z_opp, <- E; ring).
      rewrite (Qfloor_comp _ _ N), Qfloor_Z. lia. }
    rewrite T. split.
    + intros z. split.
      * intros H. injection H as <-. exact E.
      * intros H. f_equal. rewrite E in H. exact (proj1 (inject_Z_injective _ _) H).
    + intros H. exfalso. exact (H (Qfloor q) E).
  - split.
    + intros z. split; [intros H; discriminate H|]. intros H. exfalso.
      rewrite (Qfloor_comp _ _ H), Qfloor_Z in E.
      rewrite (proj2 (Qeq_bool_iff _ _) H) in E. discriminate E.
    + intros _. reflexivity.
Qed.

(** ** Witnesses of the properties above *)

Lemma find_ge_spec_witness :
  Sorted Qle [1; 2; 2; 5]%Q /\
  ((forall y, In y [1; 2; 2; 5]%Q -> (y < 3)%Q) -> find_ge [1; 2; 2; 5]%Q 3 = Raise (ValueError [])) /\
  ((exists y, In y [1; 2; 2; 5]%Q /\ (3 <= y)%Q) ->
   exists c, find_ge [1; 2; 2; 5]%Q 3 = Ok c /\ In c [1; 2; 2; 5]%Q /\ (3 <= c)%Q /\
     forall y, In y [1; 2; 2; 5]%Q -> (3 <= y)%Q -> (c <= y)%Q).
Proof.
  split; [repeat constructor; vm_compute; intros H; discriminate H|].
  apply find_ge_spec. repeat constructor; vm_compute; intros H; discriminate H.
Defined.


Lemma try_integral_float_witness :
  Float64._try_integral 2.0 = Ok 2 /\
  Float64._try_integral 2.5 = Raise (ValueError [Txt "{} does not have integral value."]) /\
  Float64._try_integral PrimFloat.infinity =
    Raise (OverflowError [Txt "cannot convert float infinity to integer"]) /\
  Float64._try_integral PrimFloat.nan = Raise (ValueError [Txt "cannot convert float NaN to integer"]).
Proof.
  split.
  { pose proof (try_integral_float 2.0) as H.
    assert (E : Float64.to_Q 2.0 = Some 2%Q) by (vm_compute; reflexivity).
    rewrite E in H. apply (proj1 H 2). reflexivity. }
  split.
  { pose proof (try_integral_float 2.5) as H.
    assert (E : Float64.to_Q 2.5 = Some (5 # 2)%Q) by (vm_compute; reflexivity).
    rewrite E in H. apply (proj2 H). intros z Hz. unfold Qeq in Hz. simpl in Hz. lia. }
  split.
  { pose proof (try_integral_float PrimFloat.infinity) as H.
    assert (E : Float64.to_Q PrimFloat.infinity = None) by (vm_compute; reflexivity).
    rewrite E in H. rewrite H. vm_compute. reflexivity. }
  pose proof (try_integral_float PrimFloat.nan) as H.
  assert (E : Float64.to_Q PrimFloat.nan = None) by (vm_compute; reflexivity).
  rewrite E in H. rewrite H. vm_compute. reflexivity.
Defined.
